(** * FiretruckPuzzleApp: drag / snap / responsive-scaling logic

    A shallow embedding of the React component [FiretruckPuzzleApp]
    (src/src/FiretruckPuzzleApp.jsx) and of the piece generator of its
    earlier tray-based variant (src/unnamed/part_001).

    JavaScript numbers are modelled in two ways. The component as a whole
    is modelled over exact rationals [Q]: every arithmetic operation (+,
    -, *, /) is the rational one, and [Math.hypot] only occurs under a
    comparison, which is decided on squares ([hypot_lt]) and related to
    the real square root in [hypot_lt_spec]. This idealisation carries
    the properties that do not depend on the last bits of a number;
    rounding, [Infinity] and [NaN] are outside it, and a division by a
    zero scale, which JavaScript answers with [Infinity] or [NaN], is the
    rational 0 there. The snap test of [onUp], which compares a rounded
    distance with a threshold, is modelled again over binary64 floats in
    module [B64].

    React state ([useState]) and the mutable ref ([useRef]) are fields of
    one [State] record that every handler transforms; writes to the DOM
    (styles, pointer capture, confetti, timers) are appended to a log.
    The keyframe-injection effect and the JSX markup carry no state and
    are left out. *)

From Stdlib Require Import Floats.
From Stdlib Require Import QArith Qminmax Qreals Reals Psatz Lia.
From Stdlib Require Import List String Ascii Bool.
Import ListNotations.

Open Scope Q_scope.

(** ** Numbers *)

Definition Qltb (x y : Q) : bool := negb (Qle_bool y x).

(** [Math.hypot(dx, dy) < r], decided without the square root:
    [sqrt (dx^2 + dy^2) < r] holds iff [r] is positive and
    [dx^2 + dy^2 < r^2]. *)
Definition hypot_lt (dx dy r : Q) : bool :=
  Qltb 0 r && Qltb (dx * dx + dy * dy) (r * r).

(** The real number [Math.hypot(dx, dy)] denotes. *)
Definition hypot (dx dy : Q) : R :=
  sqrt (Q2R dx * Q2R dx + Q2R dy * Q2R dy).

(** [a ?? b]: the left operand unless it is [undefined]. *)
Definition nullish (a : option Q) (b : Q) : Q :=
  match a with
  | Some v => v
  | None => b
  end.

(** ** Constants *)

Definition BASE_SIZE : Q := 1024.
Definition MAX_BOARD_PX : Q := 600.
Definition SNAP_RADIUS : Q := 40.

(** ** Data model *)

Record Point := mkPoint { x : Q; y : Q }.

Module Manifest.
Record Entry := mkEntry { file : string; target : Point }.
End Manifest.

Record Piece := mkPiece {
  id : string;
  src : string;
  target : Point;
  position : Point;
  placed : bool
}.

(** A DOM element is identified by the key of the [<img>] it renders. *)
Definition Element := string.

Record PointerEvent := mkPointerEvent {
  clientX : Q;
  clientY : Q;
  pointerId : Z;
  currentTarget : Element
}.

(** What [boardRef.current.getBoundingClientRect()] returns. *)
Record DOMRect := mkDOMRect { left : Q; top : Q }.

(** The object held by [dragRef.current]; [lastX] and [lastY] are
    [undefined] until the first [onMove]. *)
Module Drag.
Record Session := mkSession {
  id : string;
  offX : Q;
  offY : Q;
  el : Element;
  lastX : option Q;
  lastY : option Q
}.
End Drag.

(** The CSS transform [translate(<translateX>px, <translateY>px)
    scale(<scaleBy>)] that [tx] prints. *)
Record Transform := mkTransform {
  translateX : Q;
  translateY : Q;
  scaleBy : Q
}.

Inductive Filter := DropShadow | NoFilter.

(** Writes to the rendering surface. [Confetti] stands for one call of
    [confetti]; the particles it draws are random and purely cosmetic. *)
Inductive DomEffect :=
| StyleZIndex (el : Element) (z : Z)
| StyleFilter (el : Element) (f : Filter)
| StyleTransition (el : Element)
| StyleTransform (el : Element) (t : Transform)
| SetPointerCapture (el : Element) (pid : Z)
| PreventDefault
| Confetti (xBase yBase : Q) (big : bool) (scale : Q).

(** A logged write with the delay (ms) of the [setTimeout] it sits in;
    delay 0 is an immediate write. *)
Definition Logged : Type := Z * DomEffect.

Definition now (l : list DomEffect) : list Logged := map (pair 0%Z) l.
Definition setTimeout (l : list DomEffect) (ms : Z) : list Logged :=
  map (pair ms) l.

Record State := mkState {
  boardPx : Q;
  pieces : list Piece;
  completed : bool;
  dragRef : option Drag.Session;
  dom : list Logged
}.

Definition scale (s : State) : Q := boardPx s / BASE_SIZE.

(** ** Responsive board *)

(** [vw] and [vh] are [window.innerWidth] and [window.innerHeight]. *)
Definition calcBoardPx (vw vh : Q) : Q :=
  Qmin (Qmin (vw - 32) (vh - 180)) MAX_BOARD_PX.

(** ** Manifest loading *)

(** [randomOnBoard], with the two values [Math.random()] returns. *)
Definition randomOnBoard (r1 r2 : Q) : Point :=
  let margin := 100 in
  {| x := r1 * (BASE_SIZE - 2 * margin) + margin;
     y := r2 * (BASE_SIZE - 2 * margin) + margin |}.

(** [randTray] of the tray-based variant (src/unnamed/part_001). *)
Definition randTray (r1 r2 : Q) : Point :=
  {| x := r1 * (BASE_SIZE - 150) + 25;
     y := BASE_SIZE + 40 + r2 * 60 |}.

Definition lower (c : ascii) : ascii :=
  let n := nat_of_ascii c in
  if ((65 <=? n) && (n <=? 90))%nat then ascii_of_nat (n + 32) else c.

(** [file.replace(/\.png$/i, "")] *)
Definition stripPng (f : string) : string :=
  match rev (list_ascii_of_string f) with
  | g :: n :: p :: dot :: rest =>
      if (Ascii.eqb (lower g) "g" && Ascii.eqb (lower n) "n"
          && Ascii.eqb (lower p) "p" && Ascii.eqb dot ".")%bool
      then string_of_list_ascii (rev rest)
      else f
  | _ => f
  end.

(** [data.map(...)] of the manifest effect. [gen] is the position
    generator ([randomOnBoard], or [randTray] in the tray variant);
    [rnd k] is the value of the [k]-th call of [Math.random()], two calls
    per piece. *)
Fixpoint initializeFrom (gen : Q -> Q -> Point) (rnd : nat -> Q) (k : nat)
    (data : list Manifest.Entry) : list Piece :=
  match data with
  | [] => []
  | p :: rest =>
      {| id := stripPng (Manifest.file p);
         src := "/assets/pieces/" ++ Manifest.file p;
         target := Manifest.target p;
         position := gen (rnd k) (rnd (S k));
         placed := false |}
      :: initializeFrom gen rnd (S (S k)) rest
  end.

Definition initialize (rnd : nat -> Q) (data : list Manifest.Entry)
  : list Piece :=
  initializeFrom randomOnBoard rnd 0 data.

Definition initializeTray (rnd : nat -> Q) (data : list Manifest.Entry)
  : list Piece :=
  initializeFrom randTray rnd 0 data.

(** ** Completion *)

(** [pieces.length && pieces.every((p) => p.placed)] *)
Definition puzzleDone (ps : list Piece) : bool :=
  negb (List.length ps =? 0)%nat && forallb placed ps.

(** Body of the completion [useEffect]. *)
Definition completionEffect (s : State) : State :=
  if puzzleDone (pieces s)
  then {| boardPx := boardPx s;
          pieces := pieces s;
          completed := true;
          dragRef := dragRef s;
          dom := dom s ++ setTimeout
                   [Confetti (BASE_SIZE / 2) (BASE_SIZE / 2) true (scale s)]
                   300 |}
  else s.

(** ** Pointer math *)

Definition toLocal (sc : Q) (rect : DOMRect) (e : PointerEvent) : Point :=
  {| x := (clientX e - left rect) / sc;
     y := (clientY e - top rect) / sc |}.

Definition tx (sc : Q) (px py : Q) (s : Q) : Transform :=
  {| translateX := px * sc; translateY := py * sc; scaleBy := sc * s |}.

(** ** Pointer handlers *)

(** [arr.findIndex(f)]; [None] is JavaScript's [-1]. *)
Fixpoint findIndex {A : Type} (f : A -> bool) (l : list A) : option nat :=
  match l with
  | [] => None
  | a :: rest => if f a then Some 0%nat else option_map S (findIndex f rest)
  end.

Definition onDown (id0 : string) (e : PointerEvent) (rect : DOMRect)
    (s : State) : State :=
  if completed s then s else
  match findIndex (fun p => String.eqb (id p) id0) (pieces s) with
  | None => s
  | Some idx =>
      match nth_error (pieces s) idx with
      | None => s
      | Some p =>
          if placed p then s else
          let pt := toLocal (scale s) rect e in
          let offX := x pt - x (position p) in
          let offY := y pt - y (position p) in
          let el := currentTarget e in
          {| boardPx := boardPx s;
             pieces := pieces s;
             completed := completed s;
             dragRef := Some {| Drag.id := id0; Drag.offX := offX;
                                Drag.offY := offY; Drag.el := el;
                                Drag.lastX := None; Drag.lastY := None |};
             dom := dom s ++ now [StyleZIndex el 60;
                                  StyleFilter el DropShadow;
                                  SetPointerCapture el (pointerId e)] |}
      end
  end.

Definition onMove (e : PointerEvent) (rect : DOMRect) (s : State) : State :=
  match dragRef s with
  | None => s
  | Some d =>
      let pt := toLocal (scale s) rect e in
      let mx := x pt - Drag.offX d in
      let my := y pt - Drag.offY d in
      {| boardPx := boardPx s;
         pieces := pieces s;
         completed := completed s;
         dragRef := Some {| Drag.id := Drag.id d; Drag.offX := Drag.offX d;
                            Drag.offY := Drag.offY d; Drag.el := Drag.el d;
                            Drag.lastX := Some mx; Drag.lastY := Some my |};
         dom := dom s ++ now [StyleTransform (Drag.el d)
                                (tx (scale s) mx my (11 # 10));
                              PreventDefault] |}
  end.

(** The callback of [prev.map] in [onUp]: the new piece and the DOM
    writes made while computing it. *)
Definition onUpPiece (sc : Q) (d : Drag.Session) (p : Piece)
  : Piece * list Logged :=
  if (negb (String.eqb (id p) (Drag.id d)) || placed p)%bool then (p, [])
  else
    let rx := nullish (Drag.lastX d) (x (position p)) in
    let ry := nullish (Drag.lastY d) (y (position p)) in
    let el := Drag.el d in
    if hypot_lt (x (target p) - rx) (y (target p) - ry) SNAP_RADIUS then
      ({| id := id p; src := src p; target := target p;
          position := target p; placed := true |},
       now [StyleTransition el;
            StyleTransform el (tx sc (x (target p)) (y (target p)) (12 # 10));
            Confetti (x (target p)) (y (target p)) false sc]
       ++ setTimeout
            [StyleTransform el (tx sc (x (target p)) (y (target p)) 1);
             StyleFilter el NoFilter;
             StyleZIndex el 0] 120)
    else
      ({| id := id p; src := src p; target := target p;
          position := {| x := rx; y := ry |}; placed := placed p |},
       now [StyleTransition el;
            StyleTransform el (tx sc rx ry 1);
            StyleFilter el NoFilter;
            StyleZIndex el 10]).

(** The updater passed to [setPieces] in [onUp]: the registry after the
    release. *)
Definition applyDragResult (sc : Q) (d : Drag.Session) (prev : list Piece)
  : list Piece :=
  map (fun p => fst (onUpPiece sc d p)) prev.

Definition applyDragEffects (sc : Q) (d : Drag.Session) (prev : list Piece)
  : list Logged :=
  flat_map (fun p => snd (onUpPiece sc d p)) prev.

Definition onUp (s : State) : State :=
  match dragRef s with
  | None => s
  | Some d =>
      {| boardPx := boardPx s;
         pieces := applyDragResult (scale s) d (pieces s);
         completed := completed s;
         dragRef := None;
         dom := dom s ++ applyDragEffects (scale s) d (pieces s) |}
  end.

(** [onResize]: [setBoardPx(calcBoardPx())]; React keeps the old state
    when the new value is the same number. *)
Definition onResize (vw vh : Q) (s : State) : State :=
  if Qeq_bool (calcBoardPx vw vh) (boardPx s) then s
  else {| boardPx := calcBoardPx vw vh;
          pieces := pieces s;
          completed := completed s;
          dragRef := dragRef s;
          dom := dom s |}.

(** ** The component as a transition system *)

Inductive Event :=
| PointerDown (id0 : string) (e : PointerEvent) (rect : DOMRect)
| PointerMove (e : PointerEvent) (rect : DOMRect)
| PointerUp
| Resize (vw vh : Q).

(** One event: the handler, then the completion effect when one of its
    dependencies [[pieces, scale]] changed ([setPieces] always installs a
    fresh array; [scale] changes with [boardPx]). *)
Definition step (s : State) (ev : Event) : State :=
  match ev with
  | PointerDown id0 e rect => onDown id0 e rect s
  | PointerMove e rect => onMove e rect s
  | PointerUp =>
      match dragRef s with
      | None => s
      | Some _ => completionEffect (onUp s)
      end
  | Resize vw vh =>
      if Qeq_bool (calcBoardPx vw vh) (boardPx s) then s
      else completionEffect (onResize vw vh s)
  end.

Definition run (s : State) (evs : list Event) : State :=
  fold_left step evs s.

(** State of the first render. *)
Definition mount (vw vh : Q) : State :=
  {| boardPx := calcBoardPx vw vh;
     pieces := [];
     completed := false;
     dragRef := None;
     dom := [] |}.

(** Arrival of the manifest: [setPieces(data.map(...))], then the
    completion effect, since [pieces] changed. *)
Definition loadManifest (rnd : nat -> Q) (data : list Manifest.Entry)
    (s : State) : State :=
  completionEffect
    {| boardPx := boardPx s;
       pieces := initialize rnd data;
       completed := completed s;
       dragRef := dragRef s;
       dom := dom s |}.

(** The state once the manifest has loaded in a viewport [vw] x [vh]. *)
Definition loaded (vw vh : Q) (rnd : nat -> Q) (data : list Manifest.Entry)
  : State :=
  loadManifest rnd data (mount vw vh).

(** ** Invariants of the reachable states *)

Definition placedOnTarget (p : Piece) : Prop :=
  placed p = true -> position p = target p.

(** Placed pieces sit on their targets; the completion flag agrees with
    the completion condition; no drag session survives completion. *)
Definition Inv (s : State) : Prop :=
  Forall placedOnTarget (pieces s) /\
  completed s = puzzleDone (pieces s) /\
  (completed s = true -> dragRef s = None).

(** ** Scenarios *)

(** The one-piece manifest of the spec's scenario. *)
Definition wheelEntry : Manifest.Entry :=
  {| Manifest.file := "wheel.png";
     Manifest.target := {| x := 500; y := 800 |} |}.

Definition ladderEntry : Manifest.Entry :=
  {| Manifest.file := "Ladder.PNG";
     Manifest.target := {| x := 300; y := 420 |} |}.

(** The wheel as [initialize] creates it when [Math.random()] returns
    1/2 twice. *)
Definition wheelPiece : Piece :=
  {| id := "wheel";
     src := "/assets/pieces/wheel.png";
     target := {| x := 500; y := 800 |};
     position := randomOnBoard (1 # 2) (1 # 2);
     placed := false |}.

Definition wheelSnapped : Piece :=
  {| id := "wheel";
     src := "/assets/pieces/wheel.png";
     target := {| x := 500; y := 800 |};
     position := {| x := 500; y := 800 |};
     placed := true |}.

(** An unplaced wheel that already lies near its target. *)
Definition wheelNearby : Piece :=
  {| id := "wheel";
     src := "/assets/pieces/wheel.png";
     target := {| x := 500; y := 800 |};
     position := {| x := 510; y := 790 |};
     placed := false |}.

Definition wheelSession (lx ly : option Q) : Drag.Session :=
  {| Drag.id := "wheel"; Drag.offX := 10; Drag.offY := 10;
     Drag.el := "wheel"%string; Drag.lastX := lx; Drag.lastY := ly |}.

(** A 600px board holding [p], with the drag session [d] in flight. *)
Definition holding (p : Piece) (d : option Drag.Session) : State :=
  {| boardPx := 600; pieces := [p]; completed := false;
     dragRef := d; dom := [] |}.

(** A pointer event over the element [el], and the board rectangle of a
    1280 x 800 viewport. *)
Definition pointerAt (cx cy : Q) (el : string) : PointerEvent :=
  {| clientX := cx; clientY := cy; pointerId := 1; currentTarget := el |}.

Definition boardRect : DOMRect := {| left := 340; top := 100 |}.

Definition ladderPiece : Piece :=
  {| id := "Ladder";
     src := "/assets/pieces/Ladder.PNG";
     target := {| x := 300; y := 420 |};
     position := randomOnBoard (1 # 2) (1 # 2);
     placed := false |}.

(** The wheel puzzle in a 1280 x 800 viewport (a 600px board), and the
    gesture that carries the wheel onto its target. *)
Definition wheelPuzzle : State :=
  loaded 1280 800 (fun _ => 1 # 2) [wheelEntry].

Definition dragWheelHome : list Event :=
  [PointerDown "wheel" (pointerAt 640 400 "wheel") boardRect;
   PointerMove (pointerAt 633 569 "wheel") boardRect;
   PointerUp].

(** Events tried once the wheel is home. *)
Definition fiddle : list Event :=
  [PointerDown "wheel" (pointerAt 640 560 "wheel") boardRect;
   PointerMove (pointerAt 700 300 "wheel") boardRect;
   Resize 400 300;
   PointerUp].

(** A two-piece puzzle, and a wheel drag that is still in flight. *)
Definition truckPuzzle : State :=
  loaded 1280 800 (fun _ => 1 # 2) [wheelEntry; ladderEntry].

Definition wheelInFlight : State :=
  run truckPuzzle
    [PointerDown "wheel" (pointerAt 640 400 "wheel") boardRect;
     PointerMove (pointerAt 700 300 "wheel") boardRect].

Definition pressLadder : Event :=
  PointerDown "Ladder" (pointerAt 650 410 "Ladder") boardRect.

(** ** Rendering *)

(** The transform the JSX gives the [<img>] of a piece:
    [style={{ transform: tx(piece.position.x, piece.position.y) }}]. The
    board itself is a [boardPx] x [boardPx] box. *)
Definition renderPiece (s : State) (p : Piece) : Transform :=
  tx (scale s) (x (position p)) (y (position p)) 1.

(** ** Confetti *)

Definition CONFETTI_COLORS : list string :=
  ["#ff595e"; "#ffca3a"; "#8ac926"; "#1982c4"; "#6a4c93"]%string.

(** One [<span>] of a burst: its [cssText] values, the duration of its
    animation and the delay of the timer that removes it. *)
Module Particle.
Record t := mk {
  sz : Q;
  background : string;
  sx : Q;
  sy : Q;
  dx : Q;
  dy : Q;
  animation : Z;
  removal : Z
}.
End Particle.

(** The [i]-th turn of the loop in [confetti]; it calls [Math.random()]
    three times, for [sz], [dx] and [dy] in that order. *)
Definition confettiSpan (sc : Q) (rnd : nat -> Q) (xBase yBase : Q)
    (big : bool) (i : nat) : Particle.t :=
  let r1 := rnd (3 * i)%nat in
  let r2 := rnd (3 * i + 1)%nat in
  let r3 := rnd (3 * i + 2)%nat in
  {| Particle.sz := (if big then r1 * 10 + 6 else r1 * 6 + 4) * sc;
     Particle.background :=
       nth (i mod List.length CONFETTI_COLORS) CONFETTI_COLORS ""%string;
     Particle.sx := xBase * sc;
     Particle.sy := yBase * sc;
     Particle.dx := (r2 - (1 # 2)) * (if big then 600 else 240) * sc;
     Particle.dy := (- r3 * (if big then 600 else 300) - 200) * sc;
     Particle.animation := if big then 1200%Z else 900%Z;
     Particle.removal := if big then 1300%Z else 1000%Z |}.

(** [confetti(xBase, yBase, big)]: the spans appended to the board;
    [board] tells whether [boardRef.current] is set. *)
Definition confetti (board : bool) (sc : Q) (rnd : nat -> Q)
    (xBase yBase : Q) (big : bool) : list Particle.t :=
  if negb board then []
  else
    let N := if big then 50%nat else 14%nat in
    map (confettiSpan sc rnd xBase yBase big) (seq 0 N).

(** ** Counting and framing *)

(** [qs] has the pieces of [ps], up to [position] and [placed]. *)
Definition sameIdentity (ps qs : list Piece) : Prop :=
  map id qs = map id ps /\
  map src qs = map src ps /\
  map target qs = map target ps.


Definition placedCount (ps : list Piece) : nat :=
  List.length (filter placed ps).

(** Pointer-move and pointer-up, the events the board itself listens to. *)
Definition boardEvent (ev : Event) : bool :=
  match ev with
  | PointerMove _ _ | PointerUp => true
  | _ => false
  end.

Definition isPointerUp (ev : Event) : bool :=
  match ev with
  | PointerUp => true
  | _ => false
  end.

(** The pointer-ups of a trace. *)
Definition releases (evs : list Event) : nat :=
  List.length (filter isPointerUp evs).

(** A gesture that carries [p] home on a board whose top-left corner is
    the origin of the screen: press anywhere on the piece, move the
    pointer by the way to the target times the scale, release. *)
Definition carryHome (sc : Q) (p : Piece) : list Event :=
  let rect := {| left := 0; top := 0 |} in
  let e0 := {| clientX := 0; clientY := 0; pointerId := 1;
               currentTarget := id p |} in
  let e1 := {| clientX := (x (target p) - x (position p)) * sc;
               clientY := (y (target p) - y (position p)) * sc;
               pointerId := 1;
               currentTarget := id p |} in
  [PointerDown (id p) e0 rect; PointerMove e1 rect; PointerUp].

(** ** More scenarios *)

Definition hoseEntry : Manifest.Entry :=
  {| Manifest.file := "hose.Png";
     Manifest.target := {| x := 700; y := 640 |} |}.

(** A generator inside [0, 1) that is not constant. *)
Definition thirds (k : nat) : Q :=
  match (k mod 3)%nat with
  | 0%nat => 0
  | 1%nat => 1 # 3
  | _ => 2 # 3
  end.

(** ** The release update in binary64 *)


(** The callback of [prev.map] in [onUp] once more, now with JavaScript
    numbers as binary64 floats: subtraction and comparison are the IEEE
    754 ones. [Math.hypot] is a builtin of the engine that runs the
    component and is only specified up to an approximation; the callback
    takes it as a parameter, and [hypotV8] is the algorithm of the V8
    engine. Only the piece the callback returns is modelled here; its DOM
    writes are those of [onUpPiece]. *)
Module B64.

Record Point := mkPoint { x : float; y : float }.

Record Piece := mkPiece {
  id : string;
  src : string;
  target : Point;
  position : Point;
  placed : bool
}.

Module Drag.
Record Session := mkSession {
  id : string;
  offX : float;
  offY : float;
  el : Element;
  lastX : option float;
  lastY : option float
}.
End Drag.

Definition SNAP_RADIUS : float := 40.

Definition nullish (a : option float) (b : float) : float :=
  match a with
  | Some v => v
  | None => b
  end.

(** One turn of the Kahan summation of V8's [Math.hypot]: [acc] holds the
    sum and the compensation, [v] is an absolute value, [max] the largest
    of them. *)
Definition kahan (max : float) (acc : float * float) (v : float)
  : float * float :=
  let n := (v / max)%float in
  let summand := (n * n - snd acc)%float in
  let preliminary := (fst acc + summand)%float in
  (preliminary, (preliminary - fst acc - summand)%float).

(** [Math.hypot(a, b)] as V8 computes it: the absolute values are scaled
    by the largest one, their squares are added with Kahan summation, and
    the square root is scaled back. *)
Definition hypotV8 (a b : float) : float :=
  let a' := PrimFloat.abs a in
  let b' := PrimFloat.abs b in
  let oneArgIsNaN := (PrimFloat.is_nan a || PrimFloat.is_nan b)%bool in
  let max1 := if PrimFloat.is_nan a then 0%float
              else if (0 <? a')%float then a' else 0%float in
  let max := if PrimFloat.is_nan b then max1
             else if (max1 <? b')%float then b' else max1 in
  if (max =? infinity)%float then infinity
  else if oneArgIsNaN then nan
  else if (max =? 0)%float then 0%float
  else
    (PrimFloat.sqrt
       (fst (kahan max (kahan max (0%float, 0%float) a') b')) * max)%float.

Section Release.

Variable Math_hypot : float -> float -> float.

Definition onUpPiece (d : Drag.Session) (p : Piece) : Piece :=
  if (negb (String.eqb (id p) (Drag.id d)) || placed p)%bool then p
  else
    let rx := nullish (Drag.lastX d) (x (position p)) in
    let ry := nullish (Drag.lastY d) (y (position p)) in
    let dist :=
      Math_hypot (x (target p) - rx)%float (y (target p) - ry)%float in
    if (dist <? SNAP_RADIUS)%float then
      {| id := id p; src := src p; target := target p;
         position := target p; placed := true |}
    else
      {| id := id p; src := src p; target := target p;
         position := {| x := rx; y := ry |}; placed := placed p |}.

Definition applyDragResult (d : Drag.Session) (prev : list Piece)
  : list Piece :=
  map (onUpPiece d) prev.

End Release.

End B64.

(** ** Binary64 scenarios *)





(** * Properties *)

(** ** Numbers *)

Lemma Qltb_lt (x y : Q) : Qltb x y = true <-> x < y.
Proof.
  unfold Qltb. rewrite negb_true_iff.
  split; intro H.
  - apply Qnot_le_lt. intro Hle. apply Qle_bool_iff in Hle. congruence.
  - destruct (Qle_bool y x) eqn:E; [|reflexivity].
    apply Qle_bool_iff in E. apply Qle_not_lt in E. contradiction.
Qed.

Lemma Qltb_ge (x y : Q) : Qltb x y = false <-> y <= x.
Proof.
  unfold Qltb. rewrite negb_false_iff. apply Qle_bool_iff.
Qed.

Lemma hypot_lt_spec (dx dy r : Q) :
  hypot_lt dx dy r = true <-> (hypot dx dy < Q2R r)%R.
Proof.
  unfold hypot_lt, hypot.
  rewrite andb_true_iff, !Qltb_lt.
  assert (Hsq : (0 <= Q2R dx * Q2R dx + Q2R dy * Q2R dy)%R) by nra.
  split.
  - intros [Hr Hlt].
    apply Qlt_Rlt in Hr, Hlt.
    rewrite Q2R_plus, !Q2R_mult in Hlt.
    change (Q2R 0) with (0 / 1)%R in Hr.
    assert (Hr' : (0 < Q2R r)%R) by lra.
    rewrite <- (sqrt_square (Q2R r)) by lra.
    apply sqrt_lt_1; nra.
  - intro H.
    assert (H0 : (0 <= sqrt (Q2R dx * Q2R dx + Q2R dy * Q2R dy))%R)
      by apply sqrt_pos.
    assert (Hr : (0 < Q2R r)%R) by lra.
    split.
    + apply Rlt_Qlt. change (Q2R 0) with (0 / 1)%R. lra.
    + apply Rlt_Qlt. rewrite Q2R_plus, !Q2R_mult.
      rewrite <- (sqrt_sqrt _ Hsq). nra.
Qed.

Lemma hypot_ge_spec (dx dy r : Q) :
  hypot_lt dx dy r = false <-> (Q2R r <= hypot dx dy)%R.
Proof.
  split; intro H.
  - apply Rnot_lt_le. intro Hlt. apply hypot_lt_spec in Hlt. congruence.
  - destruct (hypot_lt dx dy r) eqn:E; [|reflexivity].
    apply hypot_lt_spec in E. lra.
Qed.

(** ** The release update, piece by piece *)

Lemma onUpPiece_other sc d p :
  id p <> Drag.id d -> onUpPiece sc d p = (p, []).
Proof.
  intro Hne. unfold onUpPiece.
  destruct (String.eqb_spec (id p) (Drag.id d)) as [Heq|_]; [contradiction|].
  reflexivity.
Qed.

Lemma onUpPiece_placed sc d p :
  placed p = true -> onUpPiece sc d p = (p, []).
Proof.
  intro Hp. unfold onUpPiece. rewrite Hp, orb_true_r. reflexivity.
Qed.

Lemma onUpPiece_snap sc d p :
  id p = Drag.id d -> placed p = false ->
  hypot_lt (x (target p) - nullish (Drag.lastX d) (x (position p)))
           (y (target p) - nullish (Drag.lastY d) (y (position p)))
           SNAP_RADIUS = true ->
  fst (onUpPiece sc d p)
  = {| id := id p; src := src p; target := target p;
       position := target p; placed := true |}.
Proof.
  intros Hid Hp Hlt. unfold onUpPiece.
  rewrite Hid, String.eqb_refl, Hp. cbn [negb orb].
  rewrite Hlt. reflexivity.
Qed.

Lemma onUpPiece_settle sc d p :
  id p = Drag.id d -> placed p = false ->
  hypot_lt (x (target p) - nullish (Drag.lastX d) (x (position p)))
           (y (target p) - nullish (Drag.lastY d) (y (position p)))
           SNAP_RADIUS = false ->
  fst (onUpPiece sc d p)
  = {| id := id p; src := src p; target := target p;
       position := {| x := nullish (Drag.lastX d) (x (position p));
                      y := nullish (Drag.lastY d) (y (position p)) |};
       placed := false |}.
Proof.
  intros Hid Hp Hge. unfold onUpPiece.
  rewrite Hid, String.eqb_refl, Hp. cbn [negb orb].
  rewrite Hge. reflexivity.
Qed.

Lemma applyDragResult_nth sc d prev i :
  nth_error (applyDragResult sc d prev) i
  = option_map (fun p => fst (onUpPiece sc d p)) (nth_error prev i).
Proof. unfold applyDragResult. apply nth_error_map. Qed.

Lemma onUp_nth s d i p :
  dragRef s = Some d -> nth_error (pieces s) i = Some p ->
  nth_error (pieces (onUp s)) i = Some (fst (onUpPiece (scale s) d p)).
Proof.
  intros Hd Hp. unfold onUp. rewrite Hd. cbn [pieces].
  rewrite applyDragResult_nth, Hp. reflexivity.
Qed.

(** The distances quoted with the scenario: about 7.07 and about 141.4. *)
Lemma scenario_distances :
  (Q2R (707 # 100) <= hypot (500 - 505) (800 - 805) < Q2R (708 # 100))%R
  /\ (Q2R (1414 # 10) <= hypot (500 - 600) (800 - 900) < Q2R (1415 # 10))%R.
Proof.
  repeat split;
    first [ apply hypot_ge_spec; reflexivity
          | apply hypot_lt_spec; reflexivity ].
Qed.

(** ** Stale drag sessions *)

Lemma onUpPiece_stale sc d p :
  (id p = Drag.id d -> placed p = true) -> onUpPiece sc d p = (p, []).
Proof.
  intro H. destruct (string_dec (id p) (Drag.id d)) as [Heq|Hne].
  - apply onUpPiece_placed, H, Heq.
  - apply onUpPiece_other, Hne.
Qed.

Lemma applyDragResult_stale sc d prev :
  (forall p, In p prev -> id p = Drag.id d -> placed p = true) ->
  applyDragResult sc d prev = prev /\ applyDragEffects sc d prev = [].
Proof.
  unfold applyDragResult, applyDragEffects.
  induction prev as [|q rest IH]; intro H; [split; reflexivity|].
  cbn [map flat_map].
  rewrite (onUpPiece_stale sc d q) by (apply H; left; reflexivity).
  destruct IH as [IH1 IH2]; [intros p Hin; apply H; right; exact Hin|].
  rewrite IH1, IH2. split; reflexivity.
Qed.

(** C3. When the id of the drag session belongs to no unplaced piece
    (every piece carrying it is already placed, or no piece carries it),
    the registry update of pointer-up returns the registry unchanged; it
    writes nothing to the rendering surface either. The update is a total
    function: there is no error outcome. *)
Theorem stale_release_is_noop s d :
  dragRef s = Some d ->
  (forall p, In p (pieces s) -> id p = Drag.id d -> placed p = true) ->
  applyDragResult (scale s) d (pieces s) = pieces s /\
  pieces (onUp s) = pieces s /\
  dom (onUp s) = dom s /\
  completed (onUp s) = completed s.
Proof.
  intros Hd H.
  destruct (applyDragResult_stale (scale s) d (pieces s) H) as [H1 H2].
  unfold onUp. rewrite Hd. cbn [pieces dom completed].
  rewrite H1, H2, app_nil_r. repeat split; reflexivity.
Qed.

(** A session on the already placed wheel, and a session whose id names
    no piece. *)
Lemma stale_release_is_noop_witness :
  pieces (onUp (holding wheelSnapped
                  (Some (wheelSession (Some 600) (Some 900)))))
  = [wheelSnapped]
  /\ pieces (onUp (holding wheelPiece
                     (Some {| Drag.id := "hose"; Drag.offX := 0;
                              Drag.offY := 0; Drag.el := "hose"%string;
                              Drag.lastX := Some 500;
                              Drag.lastY := Some 800 |})))
     = [wheelPiece].
Proof.
  split.
  - refine (proj1 (proj2 (stale_release_is_noop
              (holding wheelSnapped (Some (wheelSession (Some 600) (Some 900))))
              _ eq_refl _))).
    intros p [<-|[]] _. reflexivity.
  - refine (proj1 (proj2 (stale_release_is_noop
              (holding wheelPiece _) _ eq_refl _))).
    intros p [<-|[]] Hid. discriminate Hid.
Defined.

(** ** Coordinate conversion *)

(** In exact arithmetic, mapping a pointer position to design space with
    [toLocal] and back to screen pixels with [tx] gives the original
    position for every non-zero scale. Binary64 rounds each of the three
    operations, see [round_trip_rounds]. *)
Lemma round_trip_exact sc rect e :
  ~ sc == 0 ->
  left rect
  + translateX (tx sc (x (toLocal sc rect e)) (y (toLocal sc rect e)) 1)
  == clientX e /\
  top rect
  + translateY (tx sc (x (toLocal sc rect e)) (y (toLocal sc rect e)) 1)
  == clientY e.
Proof.
  intro Hne. cbn. split; field; exact Hne.
Qed.

(** The same round trip in binary64, for a pointer 21px right of the
    board origin: on a 600px board the result is off in the last place,
    21.000000000000004; at the smallest positive scale the division
    overflows and the result is [Infinity]. *)
Lemma round_trip_rounds :
  ((361 - 340) / (600 / 1024) * (600 / 1024))%float
  = (21 + 0x1p-48)%float /\
  ((361 - 340) / 0x1p-1074 * 0x1p-1074)%float = infinity.
Proof. split; reflexivity. Qed.

(** ** Board size *)

(** C8, as stated, fails: a viewport 32px wide gives a board of 0px and a
    scale of 0, a smaller one a negative scale. *)
Lemma calcBoardPx_has_no_floor :
  calcBoardPx 32 800 == 0
  /\ ~ 0 < scale (mount 32 800)
  /\ scale (mount 10 100) < 0.
Proof.
  split; [reflexivity|]. split; [discriminate|reflexivity].
Qed.

(** C8, amended. [calcBoardPx] is the least of [vw - 32], [vh - 180] and
    [MAX_BOARD_PX]: it never exceeds 600px nor the viewport less its
    reserved margins. It has no lower floor: the scale is positive exactly
    when the viewport is wider than 32px and taller than 180px. *)
Theorem calcBoardPx_bounds vw vh :
  calcBoardPx vw vh <= MAX_BOARD_PX /\
  calcBoardPx vw vh <= vw - 32 /\
  calcBoardPx vw vh <= vh - 180 /\
  (0 < calcBoardPx vw vh / BASE_SIZE <-> 32 < vw /\ 180 < vh).
Proof.
  unfold calcBoardPx.
  assert (H1 := Q.le_min_r (Qmin (vw - 32) (vh - 180)) MAX_BOARD_PX).
  assert (H2 := Q.le_min_l (Qmin (vw - 32) (vh - 180)) MAX_BOARD_PX).
  assert (H3 := Q.le_min_l (vw - 32) (vh - 180)).
  assert (H4 := Q.le_min_r (vw - 32) (vh - 180)).
  split; [|split; [|split; [|split]]].
  - exact H1.
  - eapply Qle_trans; eassumption.
  - eapply Qle_trans; eassumption.
  - intro H.
    assert (H0 : 0 < Qmin (Qmin (vw - 32) (vh - 180)) MAX_BOARD_PX).
    { unfold BASE_SIZE, Qdiv in H.
      setoid_replace 0 with (0 * / 1024) in H by reflexivity.
      apply Qmult_lt_r in H; [exact H|reflexivity]. }
    split; lra.
  - intros [Hw Hh].
    assert (H0 : 0 < Qmin (Qmin (vw - 32) (vh - 180)) MAX_BOARD_PX).
    { apply Q.min_glb_lt; [apply Q.min_glb_lt|reflexivity]; lra. }
    unfold BASE_SIZE, Qdiv.
    setoid_replace 0 with (0 * / 1024) by reflexivity.
    apply Qmult_lt_r; [reflexivity|exact H0].
Qed.

(** ** Initial positions *)

Lemma randomOnBoard_range r1 r2 :
  0 <= r1 < 1 -> 0 <= r2 < 1 ->
  100 <= x (randomOnBoard r1 r2) < 924 /\
  100 <= y (randomOnBoard r1 r2) < 924.
Proof.
  intros [H1 H1'] [H2 H2']. unfold randomOnBoard, BASE_SIZE. cbn [x y].
  repeat split; lra.
Qed.

Lemma randTray_range r1 r2 :
  0 <= r1 < 1 -> 0 <= r2 < 1 ->
  25 <= x (randTray r1 r2) <= 899 /\
  1064 <= y (randTray r1 r2) <= 1124.
Proof.
  intros [H1 H1'] [H2 H2']. unfold randTray, BASE_SIZE. cbn [x y].
  repeat split; lra.
Qed.

Lemma initializeFrom_In gen rnd data : forall k p,
  In p (initializeFrom gen rnd k data) ->
  placed p = false /\
  exists j, position p = gen (rnd j) (rnd (S j)).
Proof.
  induction data as [|e rest IH]; intros k p Hin; [destruct Hin|].
  destruct Hin as [<-|Hin].
  - split; [reflexivity|]. exists k. reflexivity.
  - exact (IH _ _ Hin).
Qed.

(** The tray variant is another matter: with [randTray] the wheel spawns
    at y = 1064, below the 1024-unit board. *)
Lemma tray_spawns_below_board :
  ~ (forall p, In p (initializeTray (fun _ => 0) [wheelEntry]) ->
       100 <= y (position p) /\ y (position p) <= 924).
Proof.
  intro H.
  destruct (H _ (or_introl eq_refl)) as [_ Hy].
  apply Hy. reflexivity.
Qed.

(** C5. With [Math.random()] in [0, 1), [initialize] gives every piece an
    unplaced start strictly inside the design space, at least the margin
    of 100 units away from every edge: both coordinates lie within
    [100, 924] for [BASE_SIZE] = 1024. *)
Theorem initialize_spawns_inside_margin rnd data p :
  (forall k, 0 <= rnd k < 1) ->
  In p (initialize rnd data) ->
  placed p = false /\
  100 <= x (position p) <= 924 /\
  100 <= y (position p) <= 924 /\
  0 < x (position p) < BASE_SIZE /\
  0 < y (position p) < BASE_SIZE.
Proof.
  intros Hrnd Hin.
  apply initializeFrom_In in Hin. destruct Hin as [Hp [j Hj]].
  split; [exact Hp|]. rewrite Hj.
  destruct (randomOnBoard_range (rnd j) (rnd (S j)) (Hrnd j) (Hrnd (S j)))
    as [[Hx1 Hx2] [Hy1 Hy2]].
  unfold BASE_SIZE. repeat split; lra.
Qed.

Lemma initialize_spawns_inside_margin_witness :
  placed wheelPiece = false /\
  100 <= x (position wheelPiece) <= 924 /\
  100 <= y (position wheelPiece) <= 924 /\
  0 < x (position wheelPiece) < BASE_SIZE /\
  0 < y (position wheelPiece) < BASE_SIZE.
Proof.
  refine (initialize_spawns_inside_margin (fun _ => 1 # 2)
            [wheelEntry; ladderEntry] wheelPiece _ (or_introl eq_refl)).
  intro k. split; [discriminate|reflexivity].
Defined.

(** ** Placed pieces are immutable *)

Lemma completionEffect_pieces s : pieces (completionEffect s) = pieces s.
Proof. unfold completionEffect. destruct (puzzleDone _); reflexivity. Qed.

Lemma completionEffect_dragRef s : dragRef (completionEffect s) = dragRef s.
Proof. unfold completionEffect. destruct (puzzleDone _); reflexivity. Qed.

Lemma completionEffect_completed s :
  completed (completionEffect s) = (completed s || puzzleDone (pieces s))%bool.
Proof.
  unfold completionEffect. destruct (puzzleDone _).
  - rewrite orb_true_r. reflexivity.
  - rewrite orb_false_r. reflexivity.
Qed.

Lemma onDown_pieces id0 e rect s : pieces (onDown id0 e rect s) = pieces s.
Proof.
  unfold onDown. destruct (completed s); [reflexivity|].
  destruct (findIndex _ _) as [idx|]; [|reflexivity].
  destruct (nth_error _ _) as [p|]; [|reflexivity].
  destruct (placed p); reflexivity.
Qed.

Lemma onDown_completed id0 e rect s :
  completed (onDown id0 e rect s) = completed s.
Proof.
  unfold onDown. destruct (completed s) eqn:Hc; [exact Hc|].
  destruct (findIndex _ _) as [idx|]; [|exact Hc].
  destruct (nth_error _ _) as [p|]; [|exact Hc].
  destruct (placed p); [exact Hc|reflexivity].
Qed.

Lemma onMove_pieces e rect s : pieces (onMove e rect s) = pieces s.
Proof. unfold onMove. destruct (dragRef s); reflexivity. Qed.

Lemma onMove_completed e rect s : completed (onMove e rect s) = completed s.
Proof. unfold onMove. destruct (dragRef s); reflexivity. Qed.

Lemma onResize_pieces vw vh s : pieces (onResize vw vh s) = pieces s.
Proof. unfold onResize. destruct (Qeq_bool _ _); reflexivity. Qed.

Lemma onResize_completed vw vh s :
  completed (onResize vw vh s) = completed s.
Proof. unfold onResize. destruct (Qeq_bool _ _); reflexivity. Qed.

Lemma onResize_dragRef vw vh s : dragRef (onResize vw vh s) = dragRef s.
Proof. unfold onResize. destruct (Qeq_bool _ _); reflexivity. Qed.

(** Every event either leaves the registry alone or is a pointer-up that
    applies the release update of the session in flight. *)
Lemma step_pieces s ev :
  pieces (step s ev) = pieces s \/
  exists d, dragRef s = Some d /\
            pieces (step s ev) = applyDragResult (scale s) d (pieces s).
Proof.
  destruct ev as [id0 e rect|e rect| |vw vh]; cbn [step].
  - left. apply onDown_pieces.
  - left. apply onMove_pieces.
  - destruct (dragRef s) as [d|] eqn:Hd; [|left; reflexivity].
    right. exists d. split; [reflexivity|].
    rewrite completionEffect_pieces. unfold onUp. rewrite Hd. reflexivity.
  - left. destruct (Qeq_bool _ _); [reflexivity|].
    rewrite completionEffect_pieces. apply onResize_pieces.
Qed.

Lemma step_keeps_placed s ev i p :
  nth_error (pieces s) i = Some p -> placed p = true ->
  nth_error (pieces (step s ev)) i = Some p.
Proof.
  intros Hnth Hp.
  destruct (step_pieces s ev) as [->|[d [_ ->]]]; [exact Hnth|].
  rewrite applyDragResult_nth, Hnth. cbn [option_map].
  rewrite onUpPiece_placed by exact Hp. reflexivity.
Qed.

Lemma run_keeps_placed evs : forall s i p,
  nth_error (pieces s) i = Some p -> placed p = true ->
  nth_error (pieces (run s evs)) i = Some p.
Proof.
  induction evs as [|ev evs IH]; intros s i p Hnth Hp; [exact Hnth|].
  cbn [run fold_left]. apply IH; [|exact Hp].
  apply step_keeps_placed; assumption.
Qed.

(** ** The invariant *)

Lemma onUpPiece_placedOnTarget sc d p :
  placedOnTarget p -> placedOnTarget (fst (onUpPiece sc d p)).
Proof.
  intro H. unfold onUpPiece.
  destruct (negb (String.eqb (id p) (Drag.id d)) || placed p)%bool eqn:E;
    [exact H|].
  apply orb_false_iff in E. destruct E as [_ Hp].
  destruct (hypot_lt _ _ _); unfold placedOnTarget; cbn.
  - reflexivity.
  - rewrite Hp. discriminate.
Qed.

Lemma applyDragResult_placedOnTarget sc d prev :
  Forall placedOnTarget prev ->
  Forall placedOnTarget (applyDragResult sc d prev).
Proof.
  unfold applyDragResult. intro H.
  induction H as [|q rest Hq _ IH]; cbn [map]; constructor.
  - apply onUpPiece_placedOnTarget, Hq.
  - exact IH.
Qed.

Lemma puzzleDone_initialize rnd data :
  puzzleDone (initialize rnd data) = false.
Proof.
  unfold puzzleDone, initialize. destruct data; reflexivity.
Qed.

Lemma Inv_loaded vw vh rnd data : Inv (loaded vw vh rnd data).
Proof.
  unfold loaded, loadManifest, completionEffect. cbn [pieces].
  rewrite puzzleDone_initialize.
  unfold Inv. cbn [pieces completed dragRef mount].
  rewrite puzzleDone_initialize.
  split; [|split; [reflexivity|discriminate]].
  apply Forall_forall. intros p Hin.
  apply initializeFrom_In in Hin. destruct Hin as [Hp _].
  unfold placedOnTarget. rewrite Hp. discriminate.
Qed.

Lemma Inv_step s ev : Inv s -> Inv (step s ev).
Proof.
  intros (Htgt & Hflag & Hdrag).
  destruct ev as [id0 e rect|e rect| |vw vh]; cbn [step].
  - unfold Inv.
    rewrite onDown_pieces, onDown_completed.
    split; [exact Htgt|]. split; [exact Hflag|].
    intro Hc. unfold onDown. rewrite Hc. apply Hdrag, Hc.
  - unfold Inv.
    rewrite onMove_pieces, onMove_completed.
    split; [exact Htgt|]. split; [exact Hflag|].
    intro Hc. unfold onMove. rewrite (Hdrag Hc). apply Hdrag, Hc.
  - destruct (dragRef s) as [d|] eqn:Hd; [|exact (conj Htgt (conj Hflag (fun _ => Hd)))].
    assert (Hc : completed s = false).
    { destruct (completed s); [|reflexivity].
      specialize (Hdrag eq_refl). discriminate Hdrag. }
    unfold Inv.
    rewrite completionEffect_pieces, completionEffect_completed,
      completionEffect_dragRef.
    unfold onUp. rewrite Hd. cbn [pieces completed dragRef].
    rewrite Hc. cbn [orb].
    split; [apply applyDragResult_placedOnTarget, Htgt|].
    split; reflexivity.
  - destruct (Qeq_bool _ _); [exact (conj Htgt (conj Hflag Hdrag))|].
    unfold Inv.
    rewrite completionEffect_pieces, completionEffect_completed,
      completionEffect_dragRef, onResize_pieces, onResize_completed,
      onResize_dragRef.
    rewrite <- Hflag, orb_diag.
    repeat split; assumption.
Qed.

Lemma Inv_run evs : forall s, Inv s -> Inv (run s evs).
Proof.
  induction evs as [|ev evs IH]; intros s H; [exact H|].
  cbn [run fold_left]. apply IH, Inv_step, H.
Qed.

(** C2. Once a piece of the registry is placed, no event (pointer-down,
    pointer-move, pointer-up, resize, each with its completion check)
    changes it: after any further events the registry holds the very same
    piece, placed, at the same index; and a placed piece sits exactly on
    its target. Hence the flag goes from false to true at most once and
    never back. *)
Theorem placed_is_permanent vw vh rnd data evs1 evs2 i p :
  nth_error (pieces (run (loaded vw vh rnd data) evs1)) i = Some p ->
  placed p = true ->
  position p = target p /\
  nth_error (pieces (run (run (loaded vw vh rnd data) evs1) evs2)) i
  = Some p.
Proof.
  intros Hnth Hp. split.
  - destruct (Inv_run evs1 _ (Inv_loaded vw vh rnd data)) as (Htgt & _).
    rewrite Forall_forall in Htgt.
    apply (Htgt p); [|exact Hp].
    eapply nth_error_In, Hnth.
  - apply run_keeps_placed; assumption.
Qed.

(** The wheel, dragged home, stays home whatever happens next. *)
Lemma placed_is_permanent_witness :
  position wheelSnapped = target wheelSnapped /\
  nth_error (pieces (run (run wheelPuzzle dragWheelHome) fiddle)) 0
  = Some wheelSnapped.
Proof.
  exact (placed_is_permanent 1280 800 (fun _ => 1 # 2) [wheelEntry]
           dragWheelHome fiddle 0%nat wheelSnapped eq_refl eq_refl).
Defined.

(** ** Completion *)

Lemma puzzleDone_spec ps :
  puzzleDone ps = true <->
  ps <> [] /\ forall p, In p ps -> placed p = true.
Proof.
  unfold puzzleDone. rewrite andb_true_iff, forallb_forall.
  destruct ps as [|q rest]; cbn [List.length Nat.eqb negb].
  - split; [intros [H _]; discriminate H|intros [H _]; contradiction].
  - split; intros [_ H]; (split; [|exact H]); [discriminate|reflexivity].
Qed.

Lemma step_completed_mono s ev :
  completed s = true -> completed (step s ev) = true.
Proof.
  intro Hc. destruct ev as [id0 e rect|e rect| |vw vh]; cbn [step].
  - rewrite onDown_completed. exact Hc.
  - rewrite onMove_completed. exact Hc.
  - destruct (dragRef s) as [d|] eqn:Hd; [|exact Hc].
    rewrite completionEffect_completed. unfold onUp. rewrite Hd.
    cbn [completed]. rewrite Hc. reflexivity.
  - destruct (Qeq_bool _ _); [exact Hc|].
    rewrite completionEffect_completed, onResize_completed, Hc. reflexivity.
Qed.

Lemma run_completed_mono evs : forall s,
  completed s = true -> completed (run s evs) = true.
Proof.
  induction evs as [|ev evs IH]; intros s Hc; [exact Hc|].
  cbn [run fold_left]. apply IH, step_completed_mono, Hc.
Qed.

(** C6, as stated, fails: with an empty registry the placed pieces are
    all the pieces there are, yet the flag is false, and it stays false
    whatever events follow. *)
Lemma empty_registry_never_completes :
  let s := run (loaded 1280 800 (fun _ => 1 # 2) []) fiddle in
  ~ (completed s = true <-> forall p, In p (pieces s) -> placed p = true).
Proof.
  intros s [_ H].
  assert (Hc : completed s = true) by (apply H; intros p []).
  discriminate Hc.
Qed.

(** C6, amended. After any events following the load, the completion
    flag is true exactly when the registry is non-empty and every piece
    is placed; and once true it stays true, so it turns true at most once
    per load. *)
Theorem completion_flag vw vh rnd data evs evs' :
  (completed (run (loaded vw vh rnd data) evs) = true <->
   pieces (run (loaded vw vh rnd data) evs) <> [] /\
   forall p, In p (pieces (run (loaded vw vh rnd data) evs)) ->
             placed p = true) /\
  (completed (run (loaded vw vh rnd data) evs) = true ->
   completed (run (run (loaded vw vh rnd data) evs) evs') = true).
Proof.
  split.
  - destruct (Inv_run evs _ (Inv_loaded vw vh rnd data)) as (_ & Hflag & _).
    rewrite Hflag. apply puzzleDone_spec.
  - apply run_completed_mono.
Qed.

Lemma completion_flag_witness :
  completed (run (run wheelPuzzle dragWheelHome) fiddle) = true.
Proof.
  exact (proj2 (completion_flag 1280 800 (fun _ => 1 # 2) [wheelEntry]
                  dragWheelHome fiddle) eq_refl).
Defined.

Lemma step_after_completion s ev :
  completed s = true -> dragRef s = None ->
  pieces (step s ev) = pieces s /\ dragRef (step s ev) = None.
Proof.
  intros Hc Hd. destruct ev as [id0 e rect|e rect| |vw vh]; cbn [step].
  - unfold onDown. rewrite Hc. split; [reflexivity|exact Hd].
  - unfold onMove. rewrite Hd. split; [reflexivity|exact Hd].
  - rewrite Hd. split; [reflexivity|exact Hd].
  - destruct (Qeq_bool _ _); [split; [reflexivity|exact Hd]|].
    rewrite completionEffect_pieces, completionEffect_dragRef,
      onResize_pieces, onResize_dragRef.
    split; [reflexivity|exact Hd].
Qed.

Lemma run_after_completion evs : forall s,
  completed s = true -> dragRef s = None ->
  pieces (run s evs) = pieces s /\ dragRef (run s evs) = None.
Proof.
  induction evs as [|ev evs IH]; intros s Hc Hd;
    [split; [reflexivity|exact Hd]|].
  change (run s (ev :: evs)) with (run (step s ev) evs).
  destruct (step_after_completion s ev Hc Hd) as [Hp Hd'].
  destruct (IH (step s ev) (step_completed_mono s ev Hc) Hd') as [Hp' Hd''].
  split; [rewrite Hp'; exact Hp|exact Hd''].
Qed.

(** C7. Once the completion flag is true, a pointer-down on any piece
    returns the state as it is: no drag session is created, nothing is
    written to the rendering surface, no piece changes. For the rest of
    the load no session exists and the registry stays as it is. *)
Theorem pointer_down_after_completion vw vh rnd data evs id0 e rect evs' :
  completed (run (loaded vw vh rnd data) evs) = true ->
  step (run (loaded vw vh rnd data) evs) (PointerDown id0 e rect)
  = run (loaded vw vh rnd data) evs /\
  dragRef (run (run (loaded vw vh rnd data) evs) evs') = None /\
  pieces (run (run (loaded vw vh rnd data) evs) evs')
  = pieces (run (loaded vw vh rnd data) evs).
Proof.
  intro Hc.
  destruct (Inv_run evs _ (Inv_loaded vw vh rnd data)) as (_ & _ & Hdrag).
  split.
  - cbn [step]. unfold onDown. rewrite Hc. reflexivity.
  - destruct (run_after_completion evs' _ Hc (Hdrag Hc)) as [Hp Hd].
    split; [exact Hd|exact Hp].
Qed.

Lemma pointer_down_after_completion_witness :
  step (run wheelPuzzle dragWheelHome)
       (PointerDown "wheel" (pointerAt 640 560 "wheel") boardRect)
  = run wheelPuzzle dragWheelHome /\
  dragRef (run (run wheelPuzzle dragWheelHome) fiddle) = None /\
  pieces (run (run wheelPuzzle dragWheelHome) fiddle)
  = pieces (run wheelPuzzle dragWheelHome).
Proof.
  exact (pointer_down_after_completion 1280 800 (fun _ => 1 # 2)
           [wheelEntry] dragWheelHome "wheel"
           (pointerAt 640 560 "wheel") boardRect fiddle eq_refl).
Defined.

(** ** Overlapping gestures *)

Lemma onDown_starts_session s id0 e rect i p :
  completed s = false ->
  findIndex (fun q => String.eqb (id q) id0) (pieces s) = Some i ->
  nth_error (pieces s) i = Some p -> placed p = false ->
  dragRef (onDown id0 e rect s)
  = Some {| Drag.id := id0;
            Drag.offX := x (toLocal (scale s) rect e) - x (position p);
            Drag.offY := y (toLocal (scale s) rect e) - y (position p);
            Drag.el := currentTarget e;
            Drag.lastX := None; Drag.lastY := None |}.
Proof.
  intros Hc Hi Hnth Hp. unfold onDown.
  rewrite Hc, Hi, Hnth, Hp. reflexivity.
Qed.

(** C9, as stated, fails: while the wheel is being dragged, a pointer-down
    on the ladder takes over the session, so the wheel's id is no longer
    the recorded one; the pointer-up that follows then leaves the wheel
    where the registry had it. *)
Lemma second_pointer_down_takes_over :
  option_map Drag.id (dragRef wheelInFlight) = Some "wheel"%string /\
  option_map Drag.id (dragRef (step wheelInFlight pressLadder))
  <> Some "wheel"%string /\
  pieces (run wheelInFlight [pressLadder; PointerUp]) = pieces truckPuzzle.
Proof.
  split; [reflexivity|]. split; [discriminate|reflexivity].
Qed.

(** C9, amended. The drag session lives in the single slot [dragRef], so
    at most one exists at any time, and a pointer-down never changes a
    piece of the registry. But the handler does not look at the slot: a
    pointer-down on an unplaced piece while a session is active (and the
    puzzle is not completed) replaces that session. The recorded id,
    offset and element become those of the newly pressed piece, and the
    last observed position is cleared. *)
Theorem pointer_down_during_drag s d id0 e rect i p :
  dragRef s = Some d ->
  completed s = false ->
  findIndex (fun q => String.eqb (id q) id0) (pieces s) = Some i ->
  nth_error (pieces s) i = Some p ->
  placed p = false ->
  pieces (step s (PointerDown id0 e rect)) = pieces s /\
  dragRef (step s (PointerDown id0 e rect))
  = Some {| Drag.id := id0;
            Drag.offX := x (toLocal (scale s) rect e) - x (position p);
            Drag.offY := y (toLocal (scale s) rect e) - y (position p);
            Drag.el := currentTarget e;
            Drag.lastX := None; Drag.lastY := None |}.
Proof.
  intros _ Hc Hi Hnth Hp. cbn [step]. split.
  - apply onDown_pieces.
  - exact (onDown_starts_session s id0 e rect i p Hc Hi Hnth Hp).
Qed.

Lemma pointer_down_during_drag_witness :
  pieces (step wheelInFlight pressLadder) = pieces wheelInFlight /\
  option_map Drag.id (dragRef (step wheelInFlight pressLadder))
  = Some "Ladder"%string.
Proof.
  destruct (dragRef wheelInFlight) as [d|] eqn:Hd; [|discriminate Hd].
  destruct (pointer_down_during_drag wheelInFlight d "Ladder"
              (pointerAt 650 410 "Ladder") boardRect 1%nat ladderPiece
              Hd eq_refl eq_refl eq_refl eq_refl) as [Hp Hs].
  split; [exact Hp|].
  unfold pressLadder. rewrite Hs. reflexivity.
Defined.

(** ** Piece ids *)

Lemma list_ascii_of_string_app (a b : string) :
  list_ascii_of_string (a ++ b)
  = (list_ascii_of_string a ++ list_ascii_of_string b)%list.
Proof.
  induction a as [|c a IH]; [reflexivity|].
  cbn. rewrite IH. reflexivity.
Qed.

Lemma string_of_list_ascii_app (l m : list ascii) :
  string_of_list_ascii (l ++ m)
  = (string_of_list_ascii l ++ string_of_list_ascii m)%string.
Proof.
  induction l as [|c l IH]; [reflexivity|].
  cbn. rewrite IH. reflexivity.
Qed.

(** X1. The id of a piece is its file name without a final [.png], in any
    mix of upper and lower case. *)
Theorem stripPng_drops_extension (n : string) (p q r : ascii) :
  lower p = "p"%char -> lower q = "n"%char -> lower r = "g"%char ->
  stripPng (n ++ String "." (String p (String q (String r EmptyString))))
  = n.
Proof.
  intros Hp Hq Hr. unfold stripPng.
  rewrite list_ascii_of_string_app, rev_app_distr. cbn [list_ascii_of_string
    rev app].
  rewrite Hp, Hq, Hr. cbn [Ascii.eqb Bool.eqb andb].
  rewrite rev_involutive. apply string_of_list_ascii_of_string.
Qed.

Lemma stripPng_drops_extension_witness :
  stripPng "Ladder.PnG" = "Ladder"%string.
Proof.
  exact (stripPng_drops_extension "Ladder" "P" "n" "G"
           eq_refl eq_refl eq_refl).
Defined.

(** X2. A file name that does not end in [.png] (in any case) is its own
    id: nothing else is ever stripped. *)
Theorem stripPng_keeps_other_names (f : string) :
  (forall n p q r,
     lower p = "p"%char -> lower q = "n"%char -> lower r = "g"%char ->
     f <> (n ++ String "." (String p (String q (String r EmptyString))))
          %string) ->
  stripPng f = f.
Proof.
  intro H. unfold stripPng.
  destruct (rev (list_ascii_of_string f)) as [|g [|n [|p [|dot rest]]]] eqn:E;
    try reflexivity.
  destruct (Ascii.eqb (lower g) "g" && Ascii.eqb (lower n) "n"
            && Ascii.eqb (lower p) "p" && Ascii.eqb dot ".")%bool eqn:Hc;
    [|reflexivity].
  exfalso.
  apply andb_true_iff in Hc. destruct Hc as [Hc Hdot].
  apply andb_true_iff in Hc. destruct Hc as [Hc Hp].
  apply andb_true_iff in Hc. destruct Hc as [Hg Hn].
  apply Ascii.eqb_eq in Hdot, Hp, Hn, Hg. subst dot.
  apply (H (string_of_list_ascii (rev rest)) p n g Hp Hn Hg).
  rewrite <- (string_of_list_ascii_of_string f).
  rewrite <- (rev_involutive (list_ascii_of_string f)), E.
  cbn [rev]. rewrite <- !app_assoc. cbn [app].
  rewrite string_of_list_ascii_app. reflexivity.
Qed.

Lemma stripPng_keeps_other_names_witness :
  stripPng "wheel.jpg" = "wheel.jpg"%string.
Proof.
  apply stripPng_keeps_other_names.
  intros n p q r _ Hq _ Heq.
  apply (f_equal list_ascii_of_string) in Heq.
  apply (f_equal (@rev ascii)) in Heq.
  rewrite list_ascii_of_string_app, rev_app_distr in Heq.
  cbn in Heq. injection Heq as _ Hq' _ _.
  subst q. discriminate Hq.
Defined.

(** ** The registry and the manifest *)

Lemma onUpPiece_frame sc d p :
  id (fst (onUpPiece sc d p)) = id p /\
  src (fst (onUpPiece sc d p)) = src p /\
  target (fst (onUpPiece sc d p)) = target p.
Proof.
  unfold onUpPiece.
  destruct (negb (String.eqb (id p) (Drag.id d)) || placed p)%bool;
    [repeat split|].
  destruct (hypot_lt _ _ _); repeat split.
Qed.

Lemma applyDragResult_frame sc d prev :
  sameIdentity prev (applyDragResult sc d prev).
Proof.
  unfold sameIdentity, applyDragResult.
  rewrite !map_map.
  repeat split; apply map_ext; intro p;
    destruct (onUpPiece_frame sc d p) as (H1 & H2 & H3); assumption.
Qed.

Lemma step_frame s ev : sameIdentity (pieces s) (pieces (step s ev)).
Proof.
  destruct (step_pieces s ev) as [->|[d [_ ->]]].
  - repeat split.
  - apply applyDragResult_frame.
Qed.

Lemma run_frame evs : forall s, sameIdentity (pieces s) (pieces (run s evs)).
Proof.
  induction evs as [|ev evs IH]; intro s; [repeat split|].
  change (run s (ev :: evs)) with (run (step s ev) evs).
  destruct (IH (step s ev)) as (H1 & H2 & H3).
  destruct (step_frame s ev) as (G1 & G2 & G3).
  unfold sameIdentity.
  rewrite H1, H2, H3. repeat split; assumption.
Qed.

Lemma initializeFrom_frame gen rnd data : forall k,
  map id (initializeFrom gen rnd k data)
  = map (fun e => stripPng (Manifest.file e)) data /\
  map src (initializeFrom gen rnd k data)
  = map (fun e => ("/assets/pieces/" ++ Manifest.file e)%string) data /\
  map target (initializeFrom gen rnd k data) = map Manifest.target data.
Proof.
  induction data as [|e rest IH]; intro k; [repeat split|].
  destruct (IH (S (S k))) as (H1 & H2 & H3).
  cbn [initializeFrom map id src target].
  rewrite H1, H2, H3. repeat split.
Qed.

(** X3. The registry mirrors the manifest for the whole load: whatever
    events follow, it holds one piece per manifest entry, in manifest
    order, with the id, the image path and the target the entry gave it.
    Only [position] and [placed] ever change. *)
Theorem registry_mirrors_manifest vw vh rnd data evs :
  map id (pieces (run (loaded vw vh rnd data) evs))
  = map (fun e => stripPng (Manifest.file e)) data /\
  map src (pieces (run (loaded vw vh rnd data) evs))
  = map (fun e => ("/assets/pieces/" ++ Manifest.file e)%string) data /\
  map target (pieces (run (loaded vw vh rnd data) evs))
  = map Manifest.target data /\
  List.length (pieces (run (loaded vw vh rnd data) evs)) = List.length data.
Proof.
  destruct (run_frame evs (loaded vw vh rnd data)) as (H1 & H2 & H3).
  assert (Hl : pieces (loaded vw vh rnd data) = initialize rnd data).
  { unfold loaded, loadManifest. rewrite completionEffect_pieces.
    reflexivity. }
  rewrite Hl in H1, H2, H3.
  destruct (initializeFrom_frame randomOnBoard rnd data 0) as (G1 & G2 & G3).
  fold (initialize rnd data) in G1, G2, G3.
  rewrite G1 in H1. rewrite G2 in H2. rewrite G3 in H3.
  repeat split; try assumption.
  rewrite <- (length_map target), H3. apply length_map.
Qed.

(** X4. An event changes only pieces that carry the id of the session in
    flight: every other piece is returned as it is, and with no session
    in flight no event changes any piece. *)
Theorem events_touch_only_the_dragged_id s ev i p :
  (forall d, dragRef s = Some d -> id p <> Drag.id d) ->
  nth_error (pieces s) i = Some p ->
  nth_error (pieces (step s ev)) i = Some p.
Proof.
  intros Hother Hnth.
  destruct (step_pieces s ev) as [->|[d [Hd ->]]]; [exact Hnth|].
  rewrite applyDragResult_nth, Hnth. cbn [option_map].
  rewrite onUpPiece_other by exact (Hother d Hd). reflexivity.
Qed.

Lemma events_touch_only_the_dragged_id_witness :
  nth_error (pieces (step wheelInFlight PointerUp)) 1 = Some ladderPiece.
Proof.
  apply events_touch_only_the_dragged_id; [|reflexivity].
  intros d Hd. injection Hd as Hd. subst d. discriminate.
Defined.

(** ** Starting a drag *)

Lemma findIndex_find {A : Type} (f : A -> bool) (l : list A) : forall i,
  findIndex f l = Some i -> nth_error l i = find f l /\ find f l <> None.
Proof.
  induction l as [|a rest IH]; intros i H; [discriminate H|].
  cbn [findIndex find] in *. destruct (f a).
  - injection H as <-. split; [reflexivity|discriminate].
  - destruct (findIndex f rest) as [j|]; [|discriminate H].
    injection H as <-. exact (IH j eq_refl).
Qed.

Lemma findIndex_None {A : Type} (f : A -> bool) (l : list A) :
  findIndex f l = None -> find f l = None.
Proof.
  induction l as [|a rest IH]; intro H; [reflexivity|].
  cbn [findIndex find] in *. destruct (f a); [discriminate H|].
  destruct (findIndex f rest); [discriminate H|]. exact (IH eq_refl).
Qed.

(** X5. A pointer-down on an id that no piece carries, or whose first
    piece is already placed, does nothing at all: no session, no write to
    the rendering surface, no pointer capture. *)
Theorem pointer_down_refused s id0 e rect :
  (forall p, find (fun q => String.eqb (id q) id0) (pieces s) = Some p ->
             placed p = true) ->
  onDown id0 e rect s = s.
Proof.
  intro H. unfold onDown.
  destruct (completed s); [reflexivity|].
  destruct (findIndex _ _) as [i|] eqn:Hi; [|reflexivity].
  destruct (findIndex_find _ _ _ Hi) as [Hnth _].
  destruct (nth_error (pieces s) i) as [p|]; [|reflexivity].
  rewrite (H p (eq_sym Hnth)). reflexivity.
Qed.

Lemma pointer_down_refused_witness :
  onDown "hose" (pointerAt 640 400 "hose") boardRect wheelInFlight
  = wheelInFlight /\
  onDown "wheel" (pointerAt 640 560 "wheel") boardRect
    (holding wheelSnapped None)
  = holding wheelSnapped None.
Proof.
  split; apply pointer_down_refused.
  - intros p Hp. discriminate Hp.
  - intros p Hp. injection Hp as <-. reflexivity.
Defined.

(** ** A whole gesture *)

Lemma onDown_started s id0 e rect i p :
  completed s = false ->
  findIndex (fun q => String.eqb (id q) id0) (pieces s) = Some i ->
  nth_error (pieces s) i = Some p -> placed p = false ->
  onDown id0 e rect s
  = {| boardPx := boardPx s;
       pieces := pieces s;
       completed := completed s;
       dragRef :=
         Some {| Drag.id := id0;
                 Drag.offX := x (toLocal (scale s) rect e) - x (position p);
                 Drag.offY := y (toLocal (scale s) rect e) - y (position p);
                 Drag.el := currentTarget e;
                 Drag.lastX := None; Drag.lastY := None |};
       dom := dom s ++ now [StyleZIndex (currentTarget e) 60;
                            StyleFilter (currentTarget e) DropShadow;
                            SetPointerCapture (currentTarget e)
                              (pointerId e)] |}.
Proof.
  intros Hc Hi Hnth Hp. unfold onDown.
  rewrite Hc, Hi, Hnth, Hp. reflexivity.
Qed.

Lemma onUpPiece_scale_free sc1 sc2 d p :
  fst (onUpPiece sc1 d p) = fst (onUpPiece sc2 d p).
Proof.
  unfold onUpPiece.
  destruct (negb (String.eqb (id p) (Drag.id d)) || placed p)%bool;
    [reflexivity|].
  destruct (hypot_lt _ _ _); reflexivity.
Qed.

Lemma applyDragResult_scale_free sc1 sc2 d prev :
  applyDragResult sc1 d prev = applyDragResult sc2 d prev.
Proof.
  unfold applyDragResult. apply map_ext. intro p.
  apply onUpPiece_scale_free.
Qed.

Lemma step_up_pieces s :
  pieces (step s PointerUp)
  = match dragRef s with
    | None => pieces s
    | Some d => applyDragResult 1 d (pieces s)
    end.
Proof.
  cbn [step]. destruct (dragRef s) as [d|] eqn:Hd; [|reflexivity].
  rewrite completionEffect_pieces. unfold onUp. rewrite Hd.
  cbn [pieces]. apply applyDragResult_scale_free.
Qed.

(** X7. Resizing the window in the middle of a drag changes neither the
    session nor the registry, and the release that follows gives the same
    registry as without the resize: session and snap test live in design
    units, which the scale does not touch. *)
Theorem resize_mid_drag s vw vh :
  dragRef (step s (Resize vw vh)) = dragRef s /\
  pieces (step s (Resize vw vh)) = pieces s /\
  pieces (run s [Resize vw vh; PointerUp]) = pieces (run s [PointerUp]).
Proof.
  assert (Hd : dragRef (step s (Resize vw vh)) = dragRef s).
  { cbn [step]. destruct (Qeq_bool _ _); [reflexivity|].
    rewrite completionEffect_dragRef. apply onResize_dragRef. }
  assert (Hp : pieces (step s (Resize vw vh)) = pieces s).
  { cbn [step]. destruct (Qeq_bool _ _); [reflexivity|].
    rewrite completionEffect_pieces. apply onResize_pieces. }
  split; [exact Hd|]. split; [exact Hp|].
  change (run s [Resize vw vh; PointerUp])
    with (step (step s (Resize vw vh)) PointerUp).
  change (run s [PointerUp]) with (step s PointerUp).
  rewrite !step_up_pieces, Hd, Hp. reflexivity.
Qed.

Lemma onMove_forgets e r e' r' s :
  dragRef (onMove e r (onMove e' r' s)) = dragRef (onMove e r s) /\
  pieces (onMove e r (onMove e' r' s)) = pieces (onMove e r s).
Proof.
  unfold onMove. destruct (dragRef s) as [d|] eqn:Hd; cbn [dragRef pieces].
  - split; reflexivity.
  - rewrite ?Hd. cbn [dragRef pieces]. rewrite ?Hd. split; reflexivity.
Qed.

(** X8. Only the last pointer-move of a gesture counts: any pointer-moves
    that come before it leave no trace in the registry after the
    release. *)
Theorem only_last_move_counts
    (moves : list (PointerEvent * DOMRect)) e rect : forall s,
  pieces (run s (map (fun m => PointerMove (fst m) (snd m)) moves
                 ++ [PointerMove e rect; PointerUp]))
  = pieces (run s [PointerMove e rect; PointerUp]).
Proof.
  induction moves as [|[e' r'] moves IH]; intro s; [reflexivity|].
  cbn [map app fst snd].
  change (run s (PointerMove e' r' :: ?l)) with (run (onMove e' r' s) l).
  rewrite IH.
  change (run ?t [PointerMove e rect; PointerUp])
    with (step (onMove e rect t) PointerUp).
  rewrite !step_up_pieces.
  destruct (onMove_forgets e rect e' r' s) as [-> ->]. reflexivity.
Qed.

(** X9. While no drag session is in flight, pointer-moves and pointer-ups
    over the board are ignored altogether: the state, rendering surface
    included, stays as it is. *)
Theorem hover_is_ignored evs : forall s,
  dragRef s = None ->
  forallb boardEvent evs = true ->
  run s evs = s.
Proof.
  induction evs as [|ev evs IH]; intros s Hd Hev; [reflexivity|].
  cbn [forallb] in Hev. apply andb_true_iff in Hev. destruct Hev as [H1 H2].
  change (run s (ev :: evs)) with (run (step s ev) evs).
  assert (Hs : step s ev = s).
  { destruct ev as [id0 e rect|e rect| |vw vh]; try discriminate H1;
      cbn [step]; [unfold onMove|]; rewrite Hd; reflexivity. }
  rewrite Hs. apply IH; assumption.
Qed.

Lemma hover_is_ignored_witness :
  run truckPuzzle
    [PointerMove (pointerAt 400 300 "wheel") boardRect; PointerUp;
     PointerMove (pointerAt 500 350 "wheel") boardRect]
  = truckPuzzle.
Proof.
  apply hover_is_ignored; reflexivity.
Defined.

(** ** More on the board size *)

(** X10. The board reaches its cap of 600px exactly when the window is
    at least 632px wide and 780px high; the scale never exceeds
    600/1024, so it never reaches 1. *)
Theorem board_cap vw vh :
  (calcBoardPx vw vh == MAX_BOARD_PX <-> 632 <= vw /\ 780 <= vh) /\
  scale (mount vw vh) <= 75 # 128 /\
  scale (mount vw vh) < 1.
Proof.
  unfold scale, mount. cbn [boardPx]. unfold calcBoardPx, MAX_BOARD_PX.
  assert (H1 := Q.le_min_r (Qmin (vw - 32) (vh - 180)) 600).
  assert (H2 := Q.le_min_l (Qmin (vw - 32) (vh - 180)) 600).
  assert (H3 := Q.le_min_l (vw - 32) (vh - 180)).
  assert (H4 := Q.le_min_r (vw - 32) (vh - 180)).
  set (b := Qmin (Qmin (vw - 32) (vh - 180)) 600) in *.
  set (m := Qmin (vw - 32) (vh - 180)) in *.
  split; [split|].
  - intro Hb. split; lra.
  - intros [Hw Hh].
    assert (Hge : 600 <= b).
    { apply Q.min_glb; [apply Q.min_glb|]; lra. }
    lra.
  - assert (Hs : b / BASE_SIZE == b * (1 # 1024)) by (unfold BASE_SIZE; field).
    rewrite Hs. split; lra.
Qed.

(** X11. A larger window never gives a smaller board. *)
Theorem calcBoardPx_monotone vw vh vw' vh' :
  vw <= vw' -> vh <= vh' -> calcBoardPx vw vh <= calcBoardPx vw' vh'.
Proof.
  intros Hw Hh. unfold calcBoardPx.
  assert (H1 := Q.le_min_r (Qmin (vw - 32) (vh - 180)) MAX_BOARD_PX).
  assert (H2 := Q.le_min_l (Qmin (vw - 32) (vh - 180)) MAX_BOARD_PX).
  assert (H3 := Q.le_min_l (vw - 32) (vh - 180)).
  assert (H4 := Q.le_min_r (vw - 32) (vh - 180)).
  apply Q.min_glb; [apply Q.min_glb|]; lra.
Qed.

Lemma calcBoardPx_monotone_witness :
  calcBoardPx 375 667 <= calcBoardPx 1280 800.
Proof.
  apply calcBoardPx_monotone; discriminate.
Defined.

Lemma completionEffect_boardPx s : boardPx (completionEffect s) = boardPx s.
Proof. unfold completionEffect. destruct (puzzleDone _); reflexivity. Qed.

(** X12. A second resize to the same window size changes nothing: the
    board size is already the computed one, so the state is kept and the
    completion effect does not run again. *)
Theorem resize_is_idempotent s vw vh :
  step (step s (Resize vw vh)) (Resize vw vh) = step s (Resize vw vh).
Proof.
  cbn [step].
  destruct (Qeq_bool (calcBoardPx vw vh) (boardPx s)) eqn:E.
  - rewrite E. reflexivity.
  - rewrite completionEffect_boardPx. unfold onResize at 1 3.
    rewrite E. cbn [boardPx].
    rewrite (proj2 (Qeq_bool_iff _ _) (Qeq_refl _)). reflexivity.
Qed.

(** ** Where pieces are drawn *)

Lemma calcBoardPx_pos vw vh : 32 < vw -> 180 < vh -> 0 < calcBoardPx vw vh.
Proof.
  intros Hw Hh. unfold calcBoardPx.
  apply Q.min_glb_lt; [apply Q.min_glb_lt|reflexivity]; lra.
Qed.

Lemma loaded_pieces vw vh rnd data :
  pieces (loaded vw vh rnd data) = initialize rnd data /\
  boardPx (loaded vw vh rnd data) = calcBoardPx vw vh.
Proof.
  unfold loaded, loadManifest.
  rewrite completionEffect_pieces, completionEffect_boardPx.
  split; reflexivity.
Qed.

(** X13. In a window wider than 32px and higher than 180px, every piece
    is first drawn with its origin strictly inside the board box,
    whatever [Math.random()] returns. *)
Theorem pieces_spawn_on_the_board vw vh rnd data p :
  (forall k, 0 <= rnd k < 1) ->
  32 < vw -> 180 < vh ->
  In p (pieces (loaded vw vh rnd data)) ->
  0 < translateX (renderPiece (loaded vw vh rnd data) p)
    < boardPx (loaded vw vh rnd data) /\
  0 < translateY (renderPiece (loaded vw vh rnd data) p)
    < boardPx (loaded vw vh rnd data).
Proof.
  intros Hrnd Hw Hh Hin.
  destruct (loaded_pieces vw vh rnd data) as [Hp Hb].
  rewrite Hp in Hin.
  apply initializeFrom_In in Hin. destruct Hin as [_ [j Hj]].
  unfold renderPiece, tx, scale. cbn [translateX translateY].
  rewrite Hb, Hj.
  assert (Hpos := calcBoardPx_pos vw vh Hw Hh).
  destruct (randomOnBoard_range (rnd j) (rnd (S j)) (Hrnd j) (Hrnd (S j)))
    as [[Hx1 Hx2] [Hy1 Hy2]].
  set (b := calcBoardPx vw vh) in *.
  set (px := x (randomOnBoard (rnd j) (rnd (S j)))) in *.
  set (py := y (randomOnBoard (rnd j) (rnd (S j)))) in *.
  assert (Hx : px * (b / BASE_SIZE) == px * b * (1 # 1024))
    by (unfold BASE_SIZE; field).
  assert (Hy : py * (b / BASE_SIZE) == py * b * (1 # 1024))
    by (unfold BASE_SIZE; field).
  rewrite Hx, Hy. repeat split; nra.
Qed.

Lemma pieces_spawn_on_the_board_witness :
  0 < translateX (renderPiece wheelPuzzle wheelPiece) < boardPx wheelPuzzle
  /\
  0 < translateY (renderPiece wheelPuzzle wheelPiece) < boardPx wheelPuzzle.
Proof.
  apply (pieces_spawn_on_the_board 1280 800 (fun _ => 1 # 2) [wheelEntry]).
  - intro k. split; [discriminate|reflexivity].
  - reflexivity.
  - reflexivity.
  - left. reflexivity.
Defined.

(** X14. In the tray variant every piece is first drawn below the bottom
    edge of the board, whatever the (positive) board size. *)
Theorem tray_pieces_spawn_under_the_board s rnd data p :
  (forall k, 0 <= rnd k < 1) ->
  0 < boardPx s ->
  In p (initializeTray rnd data) ->
  boardPx s < translateY (renderPiece s p).
Proof.
  intros Hrnd Hpos Hin.
  apply initializeFrom_In in Hin. destruct Hin as [_ [j Hj]].
  unfold renderPiece, tx, scale. cbn [translateY]. rewrite Hj.
  destruct (randTray_range (rnd j) (rnd (S j)) (Hrnd j) (Hrnd (S j)))
    as [_ [Hy1 _]].
  set (b := boardPx s) in *.
  set (py := y (randTray (rnd j) (rnd (S j)))) in *.
  assert (Hy : py * (b / BASE_SIZE) == py * b * (1 # 1024))
    by (unfold BASE_SIZE; field).
  rewrite Hy. nra.
Qed.

Lemma tray_pieces_spawn_under_the_board_witness :
  boardPx wheelPuzzle
  < translateY
      (renderPiece wheelPuzzle
         {| id := "wheel";
            src := "/assets/pieces/wheel.png";
            target := {| x := 500; y := 800 |};
            position := randTray (1 # 2) (1 # 2);
            placed := false |}).
Proof.
  apply (tray_pieces_spawn_under_the_board wheelPuzzle (fun _ => 1 # 2)
           [wheelEntry]).
  - intro k. split; [discriminate|reflexivity].
  - reflexivity.
  - left. reflexivity.
Defined.

(** ** Confetti *)

Lemma palette_index i :
  In (nth (i mod List.length CONFETTI_COLORS) CONFETTI_COLORS ""%string)
     CONFETTI_COLORS.
Proof.
  apply nth_In. apply Nat.mod_upper_bound. discriminate.
Qed.

(** X15. A burst appends 50 spans when big and 14 otherwise, and none
    while the board is not mounted. Every span starts at the given point
    scaled to the board, is square, takes its colour from the palette,
    and is removed 100ms after its animation has ended, so spans never
    pile up. *)
Theorem confetti_spans board sc rnd xBase yBase big :
  List.length (confetti board sc rnd xBase yBase big)
  = (if board then if big then 50 else 14 else 0)%nat /\
  forall q, In q (confetti board sc rnd xBase yBase big) ->
    Particle.sx q = xBase * sc /\
    Particle.sy q = yBase * sc /\
    In (Particle.background q) CONFETTI_COLORS /\
    Particle.removal q = (Particle.animation q + 100)%Z.
Proof.
  unfold confetti. destruct board; cbn [negb].
  - split.
    + rewrite length_map, length_seq. reflexivity.
    + intros q Hq. apply in_map_iff in Hq. destruct Hq as [i [<- _]].
      cbn [confettiSpan Particle.sx Particle.sy Particle.background
           Particle.removal Particle.animation].
      repeat split.
      * apply palette_index.
      * destruct big; reflexivity.
  - split; [reflexivity|]. intros q [].
Qed.

Lemma confetti_spans_witness :
  Particle.removal (confettiSpan (75 # 128) thirds 100 200 false 3)
  = (Particle.animation (confettiSpan (75 # 128) thirds 100 200 false 3)
     + 100)%Z.
Proof.
  refine (proj2 (proj2 (proj2 (proj2
            (confetti_spans true (75 # 128) thirds 100 200 false)
            (confettiSpan (75 # 128) thirds 100 200 false 3) _)))).
  unfold confetti. cbn [negb]. apply in_map. apply in_seq. lia.
Defined.



(** ** After completion *)

(** X17. Once the puzzle is complete, pointer events have no effect at
    all, and a resize that keeps the board size has none either. A resize
    that changes the board size stores the new size and, because the
    completion effect also depends on the scale, schedules the big
    confetti burst at the centre of the board once more. *)
Theorem celebration_replays_on_resize vw0 vh0 rnd data evs ev :
  completed (run (loaded vw0 vh0 rnd data) evs) = true ->
  step (run (loaded vw0 vh0 rnd data) evs) ev
  = match ev with
    | Resize vw vh =>
        if Qeq_bool (calcBoardPx vw vh)
                    (boardPx (run (loaded vw0 vh0 rnd data) evs))
        then run (loaded vw0 vh0 rnd data) evs
        else
          {| boardPx := calcBoardPx vw vh;
             pieces := pieces (run (loaded vw0 vh0 rnd data) evs);
             completed := true;
             dragRef := None;
             dom := dom (run (loaded vw0 vh0 rnd data) evs)
                    ++ [(300%Z, Confetti (BASE_SIZE / 2) (BASE_SIZE / 2) true
                                  (calcBoardPx vw vh / BASE_SIZE))] |}
    | _ => run (loaded vw0 vh0 rnd data) evs
    end.
Proof.
  intro Hc.
  destruct (Inv_run evs _ (Inv_loaded vw0 vh0 rnd data)) as (_ & Hflag & Hdrag).
  set (s := run (loaded vw0 vh0 rnd data) evs) in *.
  specialize (Hdrag Hc). rewrite Hc in Hflag. symmetry in Hflag.
  destruct ev as [id0 e rect|e rect| |vw vh]; cbn [step].
  - unfold onDown. rewrite Hc. reflexivity.
  - unfold onMove. rewrite Hdrag. reflexivity.
  - rewrite Hdrag. reflexivity.
  - destruct (Qeq_bool _ _) eqn:E; [reflexivity|].
    unfold onResize. rewrite E. unfold completionEffect.
    cbn [pieces boardPx completed dragRef dom scale].
    rewrite Hflag, Hdrag. reflexivity.
Qed.

Lemma celebration_replays_on_resize_witness :
  step (run wheelPuzzle dragWheelHome) (Resize 400 300)
  = {| boardPx := calcBoardPx 400 300;
       pieces := pieces (run wheelPuzzle dragWheelHome);
       completed := true;
       dragRef := None;
       dom := dom (run wheelPuzzle dragWheelHome)
              ++ [(300%Z, Confetti (BASE_SIZE / 2) (BASE_SIZE / 2) true
                            (calcBoardPx 400 300 / BASE_SIZE))] |}.
Proof.
  exact (celebration_replays_on_resize 1280 800 (fun _ => 1 # 2)
           [wheelEntry] dragWheelHome (Resize 400 300) eq_refl).
Defined.

(** ** Counting placed pieces *)

Lemma onUpPiece_count sc d q :
  (Nat.b2n (placed q) <= Nat.b2n (placed (fst (onUpPiece sc d q))))%nat.
Proof.
  destruct (placed q) eqn:Hq.
  - rewrite onUpPiece_placed by exact Hq. cbn [fst]. rewrite Hq. reflexivity.
  - apply Nat.le_0_l.
Qed.

Lemma placedCount_cons q rest :
  placedCount (q :: rest) = (Nat.b2n (placed q) + placedCount rest)%nat.
Proof. unfold placedCount. cbn [filter]. destruct (placed q); reflexivity. Qed.

Lemma applyDragResult_count_le sc d prev :
  (placedCount prev <= placedCount (applyDragResult sc d prev))%nat.
Proof.
  induction prev as [|q rest IH]; [reflexivity|].
  change (applyDragResult sc d (q :: rest))
    with (fst (onUpPiece sc d q) :: applyDragResult sc d rest).
  rewrite !placedCount_cons.
  assert (H := onUpPiece_count sc d q). lia.
Qed.

Lemma applyDragResult_count_ge sc d prev :
  NoDup (map id prev) ->
  (placedCount (applyDragResult sc d prev) <= placedCount prev + 1)%nat.
Proof.
  induction prev as [|q rest IH]; intro Hnd; [cbn; lia|].
  change (applyDragResult sc d (q :: rest))
    with (fst (onUpPiece sc d q) :: applyDragResult sc d rest).
  rewrite !placedCount_cons.
  cbn [map] in Hnd. inversion Hnd as [|? ? Hnotin Hnd']; subst.
  destruct (string_dec (id q) (Drag.id d)) as [Heq|Hne].
  - assert (Hrest : applyDragResult sc d rest = rest).
    { apply applyDragResult_stale. intros p Hin Hp.
      exfalso. apply Hnotin. rewrite Heq, <- Hp. apply in_map, Hin. }
    rewrite Hrest.
    destruct (placed q), (placed (fst (onUpPiece sc d q))); cbn; lia.
  - rewrite onUpPiece_other by exact Hne. cbn [fst].
    specialize (IH Hnd'). lia.
Qed.

(** X18. When the ids of the registry are pairwise distinct, an event
    places at most one more piece, and no event ever lowers the number of
    placed pieces. *)
Theorem one_piece_per_release s ev :
  NoDup (map id (pieces s)) ->
  (placedCount (pieces s) <= placedCount (pieces (step s ev))
   <= placedCount (pieces s) + 1)%nat.
Proof.
  intro Hnd.
  destruct (step_pieces s ev) as [->|[d [_ ->]]]; [lia|].
  split.
  - apply applyDragResult_count_le.
  - apply applyDragResult_count_ge, Hnd.
Qed.

Lemma one_piece_per_release_witness :
  (placedCount (pieces wheelInFlight)
   <= placedCount (pieces (step wheelInFlight PointerUp))
   <= placedCount (pieces wheelInFlight) + 1)%nat.
Proof.
  apply one_piece_per_release.
  repeat constructor; cbn; intuition discriminate.
Defined.

(** ** Clearing the lift *)



(** ** Solving the puzzle *)

Lemma run_app s evs1 evs2 : run s (evs1 ++ evs2) = run (run s evs1) evs2.
Proof. unfold run. apply fold_left_app. Qed.

Lemma step_pieces_not_up s ev :
  isPointerUp ev = false -> pieces (step s ev) = pieces s.
Proof.
  intro H. destruct ev as [id0 e rect|e rect| |vw vh]; cbn [step].
  - apply onDown_pieces.
  - apply onMove_pieces.
  - discriminate H.
  - destruct (Qeq_bool _ _); [reflexivity|].
    rewrite completionEffect_pieces. apply onResize_pieces.
Qed.

Lemma run_count evs : forall s,
  NoDup (map id (pieces s)) ->
  (placedCount (pieces (run s evs)) <= placedCount (pieces s) + releases evs)
  %nat.
Proof.
  induction evs as [|ev evs IH]; intros s Hnd; [cbn; lia|].
  change (run s (ev :: evs)) with (run (step s ev) evs).
  assert (Hnd' : NoDup (map id (pieces (step s ev)))).
  { destruct (step_frame s ev) as (-> & _). exact Hnd. }
  specialize (IH (step s ev) Hnd').
  unfold releases in *. cbn [filter].
  destruct (isPointerUp ev) eqn:E.
  - cbn [List.length].
    destruct (step_pieces s ev) as [Hs|[d [_ Hs]]]; rewrite Hs in *.
    + lia.
    + assert (H := applyDragResult_count_ge (scale s) d (pieces s) Hnd). lia.
  - rewrite (step_pieces_not_up s ev E) in IH. exact IH.
Qed.

Lemma placedCount_all ps :
  forallb placed ps = true -> placedCount ps = List.length ps.
Proof.
  induction ps as [|q rest IH]; intro H; [reflexivity|].
  cbn [forallb] in H. apply andb_true_iff in H. destruct H as [Hq Hrest].
  rewrite placedCount_cons, Hq, (IH Hrest). reflexivity.
Qed.

Lemma placedCount_none ps :
  (forall p, In p ps -> placed p = false) -> placedCount ps = 0%nat.
Proof.
  induction ps as [|q rest IH]; intro H; [reflexivity|].
  rewrite placedCount_cons, (H q (or_introl eq_refl)), IH; [reflexivity|].
  intros p Hin. apply H. right. exact Hin.
Qed.

(** X20. With pairwise distinct ids, the puzzle is never complete before
    there has been at least one pointer-up per piece. *)
Theorem completion_needs_a_release_per_piece vw vh rnd data evs :
  NoDup (map (fun e => stripPng (Manifest.file e)) data) ->
  completed (run (loaded vw vh rnd data) evs) = true ->
  (List.length data <= releases evs)%nat.
Proof.
  intros Hnd Hc.
  destruct (loaded_pieces vw vh rnd data) as [Hp _].
  destruct (initializeFrom_frame randomOnBoard rnd data 0) as (Hid & _).
  fold (initialize rnd data) in Hid.
  assert (Hnd0 : NoDup (map id (pieces (loaded vw vh rnd data))))
    by (rewrite Hp, Hid; exact Hnd).
  assert (Hcount := run_count evs _ Hnd0).
  rewrite (placedCount_none (pieces (loaded vw vh rnd data))) in Hcount.
  2:{ rewrite Hp. intros p Hin. apply initializeFrom_In in Hin. apply Hin. }
  destruct (Inv_run evs _ (Inv_loaded vw vh rnd data)) as (_ & Hflag & _).
  rewrite Hc in Hflag. symmetry in Hflag.
  unfold puzzleDone in Hflag. apply andb_true_iff in Hflag.
  destruct Hflag as [_ Hall].
  rewrite (placedCount_all _ Hall) in Hcount.
  destruct (run_frame evs (loaded vw vh rnd data)) as (Hids & _).
  apply (f_equal (@List.length string)) in Hids.
  rewrite !length_map, Hp in Hids.
  assert (Hlen : List.length (initialize rnd data) = List.length data).
  { rewrite <- (length_map id), Hid. apply length_map. }
  lia.
Qed.

Lemma completion_needs_a_release_per_piece_witness :
  (List.length [wheelEntry] <= releases dragWheelHome)%nat.
Proof.
  apply (completion_needs_a_release_per_piece 1280 800 (fun _ => 1 # 2)).
  - repeat constructor. intros [].
  - reflexivity.
Defined.

Lemma findIndex_NoDup (l : list Piece) : forall i p,
  NoDup (map id l) -> nth_error l i = Some p ->
  findIndex (fun q => String.eqb (id q) (id p)) l = Some i.
Proof.
  induction l as [|a rest IH]; intros i p Hnd Hnth;
    [destruct i; discriminate Hnth|].
  cbn [map] in Hnd. inversion Hnd as [|? ? Hnotin Hnd']; subst.
  destruct i as [|j]; cbn [nth_error findIndex] in *.
  - injection Hnth as ->. rewrite String.eqb_refl. reflexivity.
  - destruct (String.eqb_spec (id a) (id p)) as [Heq|_].
    + exfalso. apply Hnotin. rewrite Heq.
      apply in_map. eapply nth_error_In, Hnth.
    + rewrite (IH j p Hnd' Hnth). reflexivity.
Qed.

Lemma onDown_boardPx id0 e rect s : boardPx (onDown id0 e rect s) = boardPx s.
Proof.
  unfold onDown. destruct (completed s); [reflexivity|].
  destruct (findIndex _ _) as [idx|]; [|reflexivity].
  destruct (nth_error _ _) as [p|]; [|reflexivity].
  destruct (placed p); reflexivity.
Qed.

Lemma onMove_boardPx e rect s : boardPx (onMove e rect s) = boardPx s.
Proof. unfold onMove. destruct (dragRef s); reflexivity. Qed.

Lemma carryHome_boardPx sc p s :
  boardPx (run s (carryHome sc p)) = boardPx s.
Proof.
  unfold carryHome. cbn [run fold_left step].
  match goal with
  | |- boardPx (match dragRef ?t with _ => _ end) = _ =>
      assert (Ht : boardPx t = boardPx s)
        by (rewrite onMove_boardPx; apply onDown_boardPx);
      destruct (dragRef t) as [d|] eqn:Hd; [|exact Ht];
      rewrite completionEffect_boardPx; unfold onUp; rewrite Hd; exact Ht
  end.
Qed.

Lemma carryHome_places s i p :
  ~ scale s == 0 ->
  completed s = false ->
  NoDup (map id (pieces s)) ->
  nth_error (pieces s) i = Some p ->
  placed p = false ->
  exists p',
    nth_error (pieces (run s (carryHome (scale s) p))) i = Some p' /\
    placed p' = true.
Proof.
  intros Hsc Hc Hnd Hnth Hp.
  assert (Hi := findIndex_NoDup (pieces s) i p Hnd Hnth).
  unfold carryHome. cbn [run fold_left step].
  rewrite (onDown_started s (id p) _ _ i p Hc Hi Hnth Hp).
  unfold onMove. cbn [dragRef pieces boardPx completed dom Drag.id Drag.offX
    Drag.offY Drag.el].
  rewrite completionEffect_pieces. unfold onUp.
  cbn [dragRef pieces boardPx completed dom].
  rewrite applyDragResult_nth, Hnth. cbn [option_map].
  unfold scale in *. cbn [boardPx].
  set (sc := boardPx s / BASE_SIZE) in *.
  set (d := {| Drag.id := id p |}).
  assert (HX : x (target p) - nullish (Drag.lastX d) (x (position p)) == 0).
  { unfold d. cbn [nullish Drag.lastX toLocal x y clientX clientY left top].
    field. exact Hsc. }
  assert (HY : y (target p) - nullish (Drag.lastY d) (y (position p)) == 0).
  { unfold d. cbn [nullish Drag.lastY toLocal x y clientX clientY left top].
    field. exact Hsc. }
  assert (E : hypot_lt
                (x (target p) - nullish (Drag.lastX d) (x (position p)))
                (y (target p) - nullish (Drag.lastY d) (y (position p)))
                SNAP_RADIUS = true).
  { unfold hypot_lt. apply andb_true_iff.
    split; apply Qltb_lt; [reflexivity|].
    rewrite HX, HY. reflexivity. }
  eexists. split; [reflexivity|].
  rewrite (onUpPiece_snap sc d p eq_refl Hp E). reflexivity.
Qed.

Lemma solve_from n : forall k s,
  (List.length (pieces s) - k = n)%nat ->
  Inv s ->
  NoDup (map id (pieces s)) ->
  ~ scale s == 0 ->
  pieces s <> [] ->
  (forall j q, (j < k)%nat -> nth_error (pieces s) j = Some q ->
               placed q = true) ->
  exists evs, completed (run s evs) = true.
Proof.
  induction n as [|n IH]; intros k s Hn HInv Hnd Hsc Hne Hdone.
  - exists []. cbn [run fold_left].
    destruct HInv as (_ & Hflag & _). rewrite Hflag.
    unfold puzzleDone. apply andb_true_iff. split.
    + destruct (pieces s); [contradiction|reflexivity].
    + apply forallb_forall. intros q Hin.
      apply In_nth_error in Hin. destruct Hin as [j Hj].
      apply (Hdone j q); [|exact Hj].
      assert (Hlt : (j < List.length (pieces s))%nat)
        by (apply nth_error_Some; rewrite Hj; discriminate).
      lia.
  - destruct (nth_error (pieces s) k) as [p|] eqn:Hk.
    2:{ apply nth_error_None in Hk. lia. }
    assert (Hstep : forall s',
              List.length (pieces s') = List.length (pieces s) ->
              Inv s' -> NoDup (map id (pieces s')) -> ~ scale s' == 0 ->
              (forall j q, (j < S k)%nat -> nth_error (pieces s') j = Some q ->
                           placed q = true) ->
              exists evs, completed (run s' evs) = true).
    { intros s' Hlen HInv' Hnd' Hsc' Hdone'.
      apply (IH (S k) s'); try assumption.
      - lia.
      - intro H0. rewrite H0 in Hlen. destruct (pieces s); [|discriminate].
        contradiction. }
    destruct (placed p) eqn:Hp.
    + apply (Hstep s); try assumption; [reflexivity|].
      intros j q Hj Hq.
      destruct (Nat.eq_dec j k) as [->|Hjk].
      * rewrite Hk in Hq. injection Hq as <-. exact Hp.
      * apply (Hdone j q); [lia|exact Hq].
    + assert (Hc : completed s = false).
      { destruct HInv as (_ & Hflag & _). rewrite Hflag.
        destruct (puzzleDone (pieces s)) eqn:Hpd; [|reflexivity].
        unfold puzzleDone in Hpd. apply andb_true_iff in Hpd.
        destruct Hpd as [_ Hall]. rewrite forallb_forall in Hall.
        rewrite (Hall p) in Hp; [discriminate Hp|].
        eapply nth_error_In, Hk. }
      destruct (carryHome_places s k p Hsc Hc Hnd Hk Hp) as (p' & Hk' & Hp').
      set (g := carryHome (scale s) p) in *.
      destruct (run_frame g s) as (Hids & _).
      destruct (Hstep (run s g)) as [evs Hevs].
      * rewrite <- (length_map id), Hids. apply length_map.
      * apply Inv_run, HInv.
      * rewrite Hids. exact Hnd.
      * unfold scale in *. unfold g. rewrite carryHome_boardPx. exact Hsc.
      * intros j q Hj Hq.
        destruct (Nat.eq_dec j k) as [->|Hjk].
        -- rewrite Hk' in Hq. injection Hq as <-. exact Hp'.
        -- destruct (nth_error (pieces s) j) as [q0|] eqn:Hq0.
           ++ assert (Hplaced : placed q0 = true)
                by (apply (Hdone j q0); [lia|exact Hq0]).
              rewrite (run_keeps_placed g s j q0 Hq0 Hplaced) in Hq.
              injection Hq as <-. exact Hplaced.
           ++ apply nth_error_None in Hq0.
              assert (Hlt : (j < List.length (pieces (run s g)))%nat)
                by (apply nth_error_Some; rewrite Hq; discriminate).
              rewrite <- (length_map id), Hids, length_map in Hlt. lia.
      * exists (g ++ evs). rewrite run_app. exact Hevs.
Qed.

(** X21. The puzzle can always be solved: in a window wider than 32px and
    higher than 180px, for a non-empty manifest whose ids are pairwise
    distinct and whatever positions [Math.random()] dealt, some sequence
    of pointer events sets the completion flag. Carrying each piece home
    in turn is one. *)
Theorem puzzle_can_be_completed vw vh rnd data :
  32 < vw -> 180 < vh ->
  data <> [] ->
  NoDup (map (fun e => stripPng (Manifest.file e)) data) ->
  exists evs, completed (run (loaded vw vh rnd data) evs) = true.
Proof.
  intros Hw Hh Hne Hnd.
  destruct (loaded_pieces vw vh rnd data) as [Hp Hb].
  destruct (initializeFrom_frame randomOnBoard rnd data 0) as (Hid & _).
  fold (initialize rnd data) in Hid.
  apply (solve_from (List.length (pieces (loaded vw vh rnd data)) - 0) 0).
  - reflexivity.
  - apply Inv_loaded.
  - rewrite Hp, Hid. exact Hnd.
  - unfold scale. rewrite Hb.
    assert (Hpos := calcBoardPx_pos vw vh Hw Hh).
    intro H0.
    assert (Hs : calcBoardPx vw vh / BASE_SIZE
                 == calcBoardPx vw vh * (1 # 1024))
      by (unfold BASE_SIZE; field).
    rewrite Hs in H0. lra.
  - rewrite Hp. intro H0.
    apply (f_equal (map id)) in H0. rewrite Hid in H0.
    destruct data; [contradiction|discriminate H0].
  - intros j q Hj. lia.
Qed.

Lemma puzzle_can_be_completed_witness :
  exists evs,
    completed (run (loaded 1280 800 thirds [wheelEntry; ladderEntry; hoseEntry])
                 evs) = true.
Proof.
  apply puzzle_can_be_completed.
  - reflexivity.
  - reflexivity.
  - discriminate.
  - repeat constructor; cbn; intuition discriminate.
Defined.

(** ** The snap test in binary64 *)





(** The distances V8 computes for the scenario. *)
Lemma scenario_distances_binary64 :
  B64.hypotV8 (500 - 505) (800 - 805) = 0x1.c48c6001f0ac0p+2%float /\
  B64.hypotV8 (500 - 600) (800 - 900) = 0x1.1ad7bc01366b8p+7%float.
Proof. split; reflexivity. Qed.



